(** * Ball bouncing inside a spinning hexagon: the physics update

    A shallow embedding of [spinning-hexagon-py/main.py].  Python's numbers
    (ints and floats) are read as real numbers: [+], [-], [*], [/],
    [math.hypot], [math.cos], [math.sin] and [math.pi] are the exact
    operations of [R]; rounding is not modelled.  A 2D vector is a pair, as
    the tuples of the source are.  The module-level constants of the source
    are gathered in a [Config] record, so that the scenarios of the
    specification (a wall at rest, no damping, ...) are instances of the same
    definitions; [source_config] holds the values the source assigns. *)

From Stdlib Require Import Reals Lra Lia Psatz List.
Import ListNotations.

Open Scope R_scope.

(** ** Vectors *)

Definition Vec : Type := (R * R)%type.

(** [math.hypot(x, y)] *)
Definition hypot (x y : R) : R := sqrt (x * x + y * y).

(** [math.radians(d)] *)
Definition radians (d : R) : R := d * PI / 180.

(** ** Configuration and simulation constants *)

Record Config : Type := mkConfig {
  FPS : R;
  GRAVITY : R;
  DAMPING : R;
  RESTIUTION : R;
  BALL_RADIUS : R;
  HEX_CENTER : Vec;
  HEX_RADIUS : R;
  HEX_ANGULAR_SPEED : R
}.

Definition WIDTH : R := 800.
Definition HEIGHT : R := 600.

(** The constants as the source assigns them ([WIDTH // 2] is 400 and
    [HEIGHT // 2] is 300). *)
Definition source_config : Config :=
  {| FPS := 60;
     GRAVITY := 800;
     DAMPING := 995 / 1000;
     RESTIUTION := 9 / 10;
     BALL_RADIUS := 10;
     HEX_CENTER := (400, 300);
     HEX_RADIUS := 250;
     HEX_ANGULAR_SPEED := radians 20 |}.

Definition INITIAL_BALL_POS : Vec := (400, 300 - 150).
Definition INITIAL_BALL_VEL : Vec := (150, 0).

(** ** Helper functions *)

(** The body of the loop of [compute_hexagon_vertices], for index [i]. *)
Definition hexagon_vertex (center : Vec) (radius rotation : R) (i : nat) : Vec :=
  let '(cx, cy) := center in
  let theta := rotation + INR i * (PI / 3) in
  let x := cx + radius * cos theta in
  let y := cy + radius * sin theta in
  (x, y).

(** [for i in range(6): ... vertices.append((x, y))] *)
Definition compute_hexagon_vertices (center : Vec) (radius rotation : R) : list Vec :=
  fold_left (fun vertices i => vertices ++ [hexagon_vertex center radius rotation i])
            (seq 0 6) [].

Definition closest_point_on_segment (A B P : Vec) : Vec * R :=
  let '(ax, ay) := A in
  let '(bx, by_) := B in
  let '(px, py) := P in
  let APx := px - ax in
  let APy := py - ay in
  let ABx := bx - ax in
  let ABy := by_ - ay in
  let ab_squared := ABx * ABx + ABy * ABy in
  if Req_dec_T ab_squared 0 then (A, 0)
  else
    let t := (APx * ABx + APy * ABy) / ab_squared in
    let t := Rmax 0 (Rmin 1 t) in
    let qx := ax + t * ABx in
    let qy := ay + t * ABy in
    ((qx, qy), t).

Definition normalize (vec : Vec) : Vec :=
  let '(x, y) := vec in
  let mag := hypot x y in
  if Req_dec_T mag 0 then (0, 0) else (x / mag, y / mag).

Definition vector_sub (a b : Vec) : Vec := (fst a - fst b, snd a - snd b).

Definition vector_add (a b : Vec) : Vec := (fst a + fst b, snd a + snd b).

Definition vector_mul (vec : Vec) (scalar : R) : Vec :=
  (fst vec * scalar, snd vec * scalar).

Definition dot (a b : Vec) : R := fst a * fst b + snd a * snd b.

Definition reflect (vel normal : Vec) : Vec :=
  let v_dot_n := dot vel normal in
  vector_sub vel (vector_mul normal (2 * v_dot_n)).

Definition wall_velocity_at_point (point center : Vec) (angular_speed : R) : Vec :=
  let dx := fst point - fst center in
  let dy := snd point - snd center in
  (- angular_speed * dy, angular_speed * dx).

(** ** Simulation state: the three variables [main] updates every tick *)

Record SimState : Type := mkState {
  ball_pos : Vec;
  ball_vel : Vec;
  hex_rotation : R
}.

Definition initial_state : SimState :=
  {| ball_pos := INITIAL_BALL_POS; ball_vel := INITIAL_BALL_VEL; hex_rotation := 0 |}.

(** ** One wall of the hexagon *)

(** The closest point [Q] of the wall to the ball centre, and [dist]. *)
Definition contact_point (A B P : Vec) : Vec := fst (closest_point_on_segment A B P).

Definition wall_dist (A B P : Vec) : R :=
  let Q := contact_point A B P in
  let diff := vector_sub P Q in
  hypot (fst diff) (snd diff).

(** The wall's inward normal: the normalized perpendicular of the tangent,
    flipped when it points away from the hexagon centre. *)
Definition inward_normal (center A B : Vec) : Vec :=
  let tangent := (fst B - fst A, snd B - snd A) in
  let candidate := (- snd tangent, fst tangent) in
  let candidate := normalize candidate in
  let mid := ((fst A + fst B) / 2, (snd A + snd B) / 2) in
  let to_center := vector_sub center mid in
  if Rlt_dec (dot candidate to_center) 0 then vector_mul candidate (-1) else candidate.

(** The vector from the wall midpoint to the hexagon centre. *)
Definition to_center (center A B : Vec) : Vec :=
  vector_sub center ((fst A + fst B) / 2, (snd A + snd B) / 2).

(** The wall's velocity at the contact point and the ball's velocity
    relative to it. *)
Definition v_wall_at (cfg : Config) (A B P : Vec) : Vec :=
  wall_velocity_at_point (contact_point A B P) (HEX_CENTER cfg) (HEX_ANGULAR_SPEED cfg).

Definition rel_vel_at (cfg : Config) (A B : Vec) (st : SimState) : Vec :=
  vector_sub (ball_vel st) (v_wall_at cfg A B (ball_pos st)).

(** The body of the loop over the walls, for the wall from [A] to [B]. *)
Definition resolve_edge (cfg : Config) (A B : Vec) (st : SimState) : SimState :=
  let Q := contact_point A B (ball_pos st) in
  let diff := vector_sub (ball_pos st) Q in
  let dist := hypot (fst diff) (snd diff) in
  if Rlt_dec dist (BALL_RADIUS cfg) then
    let penetration := BALL_RADIUS cfg - dist in
    let normal := inward_normal (HEX_CENTER cfg) A B in
    let v_wall := wall_velocity_at_point Q (HEX_CENTER cfg) (HEX_ANGULAR_SPEED cfg) in
    let rel_vel := vector_sub (ball_vel st) v_wall in
    if Rlt_dec (dot rel_vel normal) 0 then
      let v_rel_dot := dot rel_vel normal in
      let rel_vel_reflected :=
        vector_sub rel_vel (vector_mul normal ((1 + RESTIUTION cfg) * v_rel_dot)) in
      let new_ball_vel := vector_add rel_vel_reflected v_wall in
      {| ball_pos := (fst (ball_pos st) + fst normal * penetration,
                      snd (ball_pos st) + snd normal * penetration);
         ball_vel := new_ball_vel;
         hex_rotation := hex_rotation st |}
    else st
  else st.

(** [for i in range(num_vertices)]: wall [i] runs from [vertices[i]] to
    [vertices[(i + 1) % num_vertices]]; the walls are resolved in order,
    each on the state the previous one left. *)
Definition resolve_walls (cfg : Config) (vertices : list Vec) (st : SimState) : SimState :=
  let num_vertices := length vertices in
  fold_left
    (fun st i =>
       let A := nth i vertices (0, 0) in
       let B := nth (Nat.modulo (i + 1) num_vertices) vertices (0, 0) in
       resolve_edge cfg A B st)
    (seq 0 num_vertices) st.

(** ** One tick of the main loop *)

(** [ball_vel[1] += GRAVITY * dt] *)
Definition apply_gravity (cfg : Config) (dt : R) (st : SimState) : SimState :=
  {| ball_pos := ball_pos st;
     ball_vel := (fst (ball_vel st), snd (ball_vel st) + GRAVITY cfg * dt);
     hex_rotation := hex_rotation st |}.

(** [ball_pos[0] += ball_vel[0] * dt; ball_pos[1] += ball_vel[1] * dt] *)
Definition integrate (dt : R) (st : SimState) : SimState :=
  {| ball_pos := (fst (ball_pos st) + fst (ball_vel st) * dt,
                  snd (ball_pos st) + snd (ball_vel st) * dt);
     ball_vel := ball_vel st;
     hex_rotation := hex_rotation st |}.

(** [ball_vel[0] *= DAMPING; ball_vel[1] *= DAMPING] *)
Definition apply_damping (cfg : Config) (st : SimState) : SimState :=
  {| ball_pos := ball_pos st;
     ball_vel := (fst (ball_vel st) * DAMPING cfg, snd (ball_vel st) * DAMPING cfg);
     hex_rotation := hex_rotation st |}.

(** [hex_rotation += HEX_ANGULAR_SPEED * dt] *)
Definition advance_rotation (cfg : Config) (dt : R) (st : SimState) : SimState :=
  {| ball_pos := ball_pos st;
     ball_vel := ball_vel st;
     hex_rotation := hex_rotation st + HEX_ANGULAR_SPEED cfg * dt |}.

(** The part of a tick before the walls are looked at. *)
Definition free_motion (cfg : Config) (dt : R) (st : SimState) : SimState :=
  advance_rotation cfg dt (apply_damping cfg (integrate dt (apply_gravity cfg dt st))).

(** The whole update of the simulation state in one pass of the loop. *)
Definition tick (cfg : Config) (dt : R) (st : SimState) : SimState :=
  let st := free_motion cfg dt st in
  let vertices :=
    compute_hexagon_vertices (HEX_CENTER cfg) (HEX_RADIUS cfg) (hex_rotation st) in
  resolve_walls cfg vertices st.

(** [n] passes of the loop with the same [dt]. *)
Fixpoint run_ticks (step : SimState -> SimState) (n : nat) (st : SimState) : SimState :=
  match n with
  | O => st
  | S n' => run_ticks step n' (step st)
  end.

(** ** Auxiliary notions used to state the properties *)

(** The point of the line through [A] and [B] at parameter [t]. *)
Definition point_at (A B : Vec) (t : R) : Vec :=
  vector_add A (vector_mul (vector_sub B A) t).

(** Euclidean distance, computed as the source computes [dist]. *)
Definition distance (P Q : Vec) : R :=
  let diff := vector_sub P Q in
  hypot (fst diff) (snd diff).

(** The projection parameter before it is clamped. *)
Definition proj_param (A B P : Vec) : R :=
  dot (vector_sub P A) (vector_sub B A) / dot (vector_sub B A) (vector_sub B A).

(** The two tests of the loop body. *)
Definition collides (cfg : Config) (A B : Vec) (st : SimState) : Prop :=
  wall_dist A B (ball_pos st) < BALL_RADIUS cfg.

Definition approach (cfg : Config) (A B : Vec) (st : SimState) : R :=
  dot (rel_vel_at cfg A B st) (inward_normal (HEX_CENTER cfg) A B).

Definition penetration (cfg : Config) (A B : Vec) (st : SimState) : R :=
  BALL_RADIUS cfg - wall_dist A B (ball_pos st).

(** Signed distance of [P] from the line of the wall, along the inward normal. *)
Definition normal_distance (cfg : Config) (A B P : Vec) : R :=
  dot (vector_sub P A) (inward_normal (HEX_CENTER cfg) A B).

(** The end points [A], [B] of wall [i], as the loop over the walls takes
    them from the vertex list. *)
Definition hexagon_wall (center : Vec) (radius rotation : R) (i : nat) : Vec * Vec :=
  let vertices := compute_hexagon_vertices center radius rotation in
  (nth i vertices (0, 0), nth (Nat.modulo (i + 1) (length vertices)) vertices (0, 0)).

(** The distance from the centre of a regular hexagon to its sides. *)
Definition apothem (radius : R) : R := Rabs radius * (sqrt 3 / 2).

(** ** Scenarios

    Instances of the configuration and states used by the scenarios of the
    specification. *)

(** The source's constants with the hexagon at rest. *)
Definition still_config : Config :=
  {| FPS := 60;
     GRAVITY := 800;
     DAMPING := 995 / 1000;
     RESTIUTION := 9 / 10;
     BALL_RADIUS := 10;
     HEX_CENTER := (400, 300);
     HEX_RADIUS := 250;
     HEX_ANGULAR_SPEED := 0 |}.

(** A wall below the centre, and a ball at [pos] moving with [vel]. *)
Definition floor_A : Vec := (390, 500).
Definition floor_B : Vec := (410, 500).

Definition ball_at (pos vel : Vec) : SimState :=
  {| ball_pos := pos; ball_vel := vel; hex_rotation := 0 |}.

(** The source's gravity and tick rate, no damping, hexagon at rest. *)
Definition free_fall_config : Config :=
  {| FPS := 60;
     GRAVITY := 800;
     DAMPING := 1;
     RESTIUTION := 9 / 10;
     BALL_RADIUS := 10;
     HEX_CENTER := (400, 300);
     HEX_RADIUS := 250;
     HEX_ANGULAR_SPEED := 0 |}.

(** The ball at the hexagon centre, at rest. *)
Definition centre_at_rest (cfg : Config) : SimState :=
  {| ball_pos := HEX_CENTER cfg; ball_vel := (0, 0); hex_rotation := 0 |}.

(** ** The loop body with all the variables of [main]

    The update once more, statement by statement, on a store that holds
    every local variable of [main]: the three the physics lives in
    ([ball_pos], [ball_vel], [hex_rotation]) and those the loop body assigns
    on its way ([dt], [running], [vertices], [num_vertices], [i], [A], [B],
    [Q], [diff], [dist], ...).  A variable keeps its value from one pass of
    the loop to the next until it is assigned again, so a pass starts with
    whatever the previous one left in them.  The events polled in a pass are
    an input, as [dt] is. *)

Inductive Event : Type := QUIT | OtherEvent.

(** The variables that hold a pair of numbers, and those that hold a number. *)
Inductive VecVar : Type :=
| V_ball_pos | V_ball_vel | V_A | V_B | V_Q | V_diff | V_tangent | V_candidate
| V_mid | V_to_center | V_normal | V_v_wall | V_rel_vel | V_rel_vel_reflected
| V_new_ball_vel.

Inductive NumVar : Type :=
| N_dt | N_hex_rotation | N_dist | N_penetration | N_v_rel_dot.

Definition vec_index (x : VecVar) : nat :=
  match x with
  | V_ball_pos => 0 | V_ball_vel => 1 | V_A => 2 | V_B => 3 | V_Q => 4
  | V_diff => 5 | V_tangent => 6 | V_candidate => 7 | V_mid => 8
  | V_to_center => 9 | V_normal => 10 | V_v_wall => 11 | V_rel_vel => 12
  | V_rel_vel_reflected => 13 | V_new_ball_vel => 14
  end.

Definition num_index (x : NumVar) : nat :=
  match x with
  | N_dt => 0 | N_hex_rotation => 1 | N_dist => 2 | N_penetration => 3
  | N_v_rel_dot => 4
  end.

Record Locals : Type := mkLocals {
  vecs : VecVar -> Vec;
  nums : NumVar -> R;
  vertices : list Vec;
  num_vertices : nat;
  wall_index : nat;
  running : bool
}.

Definition set_vec (x : VecVar) (v : Vec) (s : Locals) : Locals :=
  {| vecs := fun y => if Nat.eqb (vec_index y) (vec_index x) then v else vecs s y;
     nums := nums s;
     vertices := vertices s;
     num_vertices := num_vertices s;
     wall_index := wall_index s;
     running := running s |}.

Definition set_num (x : NumVar) (v : R) (s : Locals) : Locals :=
  {| vecs := vecs s;
     nums := fun y => if Nat.eqb (num_index y) (num_index x) then v else nums s y;
     vertices := vertices s;
     num_vertices := num_vertices s;
     wall_index := wall_index s;
     running := running s |}.

Definition set_vertices (v : list Vec) (s : Locals) : Locals :=
  {| vecs := vecs s; nums := nums s; vertices := v;
     num_vertices := num_vertices s; wall_index := wall_index s;
     running := running s |}.

Definition set_num_vertices (n : nat) (s : Locals) : Locals :=
  {| vecs := vecs s; nums := nums s; vertices := vertices s;
     num_vertices := n; wall_index := wall_index s; running := running s |}.

Definition set_wall_index (n : nat) (s : Locals) : Locals :=
  {| vecs := vecs s; nums := nums s; vertices := vertices s;
     num_vertices := num_vertices s; wall_index := n; running := running s |}.

Definition set_running (b : bool) (s : Locals) : Locals :=
  {| vecs := vecs s; nums := nums s; vertices := vertices s;
     num_vertices := num_vertices s; wall_index := wall_index s; running := b |}.

(** [for event in pygame.event.get(): if event.type == pygame.QUIT: running = False] *)
Definition handle_events (events : list Event) (s : Locals) : Locals :=
  fold_left
    (fun s event =>
       match event with
       | QUIT => set_running false s
       | OtherEvent => s
       end)
    events s.

(** The statements from [ball_vel[1] += GRAVITY * dt] to
    [num_vertices = len(vertices)]. *)
Definition update_ball (cfg : Config) (s : Locals) : Locals :=
  let s := set_vec V_ball_vel
             (fst (vecs s V_ball_vel), snd (vecs s V_ball_vel) + GRAVITY cfg * nums s N_dt)
             s in
  let s := set_vec V_ball_pos
             (fst (vecs s V_ball_pos) + fst (vecs s V_ball_vel) * nums s N_dt,
              snd (vecs s V_ball_pos)) s in
  let s := set_vec V_ball_pos
             (fst (vecs s V_ball_pos),
              snd (vecs s V_ball_pos) + snd (vecs s V_ball_vel) * nums s N_dt) s in
  let s := set_vec V_ball_vel
             (fst (vecs s V_ball_vel) * DAMPING cfg, snd (vecs s V_ball_vel)) s in
  let s := set_vec V_ball_vel
             (fst (vecs s V_ball_vel), snd (vecs s V_ball_vel) * DAMPING cfg) s in
  let s := set_num N_hex_rotation
             (nums s N_hex_rotation + HEX_ANGULAR_SPEED cfg * nums s N_dt) s in
  let s := set_vertices
             (compute_hexagon_vertices (HEX_CENTER cfg) (HEX_RADIUS cfg)
                (nums s N_hex_rotation)) s in
  set_num_vertices (length (vertices s)) s.

(** The loop body in four blocks of consecutive statements.  From
    [A = vertices[i]] to [dist = math.hypot(...)]: *)
Definition find_contact (idx : nat) (s : Locals) : Locals :=
  let s := set_wall_index idx s in
  let s := set_vec V_A (nth (wall_index s) (vertices s) (0, 0)) s in
  let s := set_vec V_B
             (nth (Nat.modulo (wall_index s + 1) (num_vertices s)) (vertices s) (0, 0))
             s in
  let s := set_vec V_Q
             (fst (closest_point_on_segment (vecs s V_A) (vecs s V_B) (vecs s V_ball_pos)))
             s in
  let s := set_vec V_diff (vector_sub (vecs s V_ball_pos) (vecs s V_Q)) s in
  set_num N_dist (hypot (fst (vecs s V_diff)) (snd (vecs s V_diff))) s.

(** From [penetration = BALL_RADIUS - dist] to the assignment of [normal]: *)
Definition compute_normal (cfg : Config) (s : Locals) : Locals :=
  let s := set_num N_penetration (BALL_RADIUS cfg - nums s N_dist) s in
  let s := set_vec V_tangent
             (fst (vecs s V_B) - fst (vecs s V_A), snd (vecs s V_B) - snd (vecs s V_A))
             s in
  let s := set_vec V_candidate (- snd (vecs s V_tangent), fst (vecs s V_tangent)) s in
  let s := set_vec V_candidate (normalize (vecs s V_candidate)) s in
  let s := set_vec V_mid
             ((fst (vecs s V_A) + fst (vecs s V_B)) / 2,
              (snd (vecs s V_A) + snd (vecs s V_B)) / 2) s in
  let s := set_vec V_to_center (vector_sub (HEX_CENTER cfg) (vecs s V_mid)) s in
  if Rlt_dec (dot (vecs s V_candidate) (vecs s V_to_center)) 0
  then set_vec V_normal (vector_mul (vecs s V_candidate) (-1)) s
  else set_vec V_normal (vecs s V_candidate) s.

(** [v_wall = ...] and [rel_vel = ...]: *)
Definition compute_rel_vel (cfg : Config) (s : Locals) : Locals :=
  let s := set_vec V_v_wall
             (wall_velocity_at_point (vecs s V_Q) (HEX_CENTER cfg)
                (HEX_ANGULAR_SPEED cfg)) s in
  set_vec V_rel_vel (vector_sub (vecs s V_ball_vel) (vecs s V_v_wall)) s.

(** From [v_rel_dot = ...] to [ball_pos[1] += normal[1] * penetration]: *)
Definition reflect_and_push (cfg : Config) (s : Locals) : Locals :=
  let s := set_num N_v_rel_dot (dot (vecs s V_rel_vel) (vecs s V_normal)) s in
  let s := set_vec V_rel_vel_reflected
             (vector_sub (vecs s V_rel_vel)
                (vector_mul (vecs s V_normal)
                   ((1 + RESTIUTION cfg) * nums s N_v_rel_dot))) s in
  let s := set_vec V_new_ball_vel
             (vector_add (vecs s V_rel_vel_reflected) (vecs s V_v_wall)) s in
  let s := set_vec V_ball_vel (vecs s V_new_ball_vel) s in
  let s := set_vec V_ball_pos
             (fst (vecs s V_ball_pos) + fst (vecs s V_normal) * nums s N_penetration,
              snd (vecs s V_ball_pos)) s in
  set_vec V_ball_pos
    (fst (vecs s V_ball_pos),
     snd (vecs s V_ball_pos) + snd (vecs s V_normal) * nums s N_penetration) s.

(** One pass of [for i in range(num_vertices)], with [i = idx]. *)
Definition check_wall (cfg : Config) (idx : nat) (s : Locals) : Locals :=
  let s := find_contact idx s in
  if Rlt_dec (nums s N_dist) (BALL_RADIUS cfg) then
    let s := compute_normal cfg s in
    let s := compute_rel_vel cfg s in
    if Rlt_dec (dot (vecs s V_rel_vel) (vecs s V_normal)) 0 then
      reflect_and_push cfg s
    else s
  else s.

(** [for i in range(num_vertices): ...] *)
Definition check_walls (cfg : Config) (s : Locals) : Locals :=
  fold_left (fun s idx => check_wall cfg idx s) (seq 0 (num_vertices s)) s.

(** One pass of [while running], rendering left out: [dt] is what the clock
    returned and [events] what was polled. *)
Definition loop_body (cfg : Config) (dt : R) (events : list Event) (s : Locals) : Locals :=
  let s := set_num N_dt dt s in
  let s := handle_events events s in
  let s := update_ball cfg s in
  check_walls cfg s.

(** The ball position, ball velocity and rotation held by a store. *)
Definition physics_state (s : Locals) : SimState :=
  {| ball_pos := vecs s V_ball_pos;
     ball_vel := vecs s V_ball_vel;
     hex_rotation := nums s N_hex_rotation |}.

(** Two stores for the same physics state: a fresh one, and one as a
    previous pass may leave it. *)
Definition fresh_locals (st : SimState) : Locals :=
  {| vecs := fun x => match x with
                      | V_ball_pos => ball_pos st
                      | V_ball_vel => ball_vel st
                      | _ => (0, 0)
                      end;
     nums := fun x => match x with
                      | N_hex_rotation => hex_rotation st
                      | _ => 0
                      end;
     vertices := [];
     num_vertices := 0;
     wall_index := 0;
     running := true |}.

Definition stale_locals (st : SimState) : Locals :=
  {| vecs := fun x => match x with
                      | V_ball_pos => ball_pos st
                      | V_ball_vel => ball_vel st
                      | V_normal => (1, 0)
                      | _ => (7, -3)
                      end;
     nums := fun x => match x with
                      | N_hex_rotation => hex_rotation st
                      | N_dt => 5
                      | _ => 1
                      end;
     vertices := [(1, 2); (3, 4)];
     num_vertices := 9;
     wall_index := 4;
     running := false |}.

(** * Properties *)

(** ** Square roots and vectors *)

Lemma hypot_nonneg (x y : R) : 0 <= hypot x y.
Proof. unfold hypot. apply sqrt_pos. Qed.

Lemma hypot_sqr (x y : R) : hypot x y * hypot x y = x * x + y * y.
Proof. unfold hypot. apply sqrt_sqrt. nra. Qed.

Lemma hypot_zero_iff (x y : R) : hypot x y = 0 <-> x = 0 /\ y = 0.
Proof.
  split.
  - intros H. pose proof (hypot_sqr x y) as Hs. rewrite H in Hs. split; nra.
  - intros [-> ->]. unfold hypot. replace (0 * 0 + 0 * 0) with 0 by ring. apply sqrt_0.
Qed.

Lemma sum_sqr_zero (x y : R) : x * x + y * y = 0 -> x = 0 /\ y = 0.
Proof. intros H. split; nra. Qed.

Lemma sum_sqr_pos (x y : R) : x * x + y * y <> 0 -> 0 < x * x + y * y.
Proof.
  intros Hne. assert (H0 : 0 <= x * x + y * y) by nra.
  destruct H0 as [Hlt | Heq]; [exact Hlt | exfalso; apply Hne; symmetry; exact Heq].
Qed.

Lemma div_ge_1 (x d : R) : 0 < d -> d <= x -> 1 <= x / d.
Proof.
  intros Hd Hx. apply (Rmult_le_reg_r d); [exact Hd |].
  replace (x / d * d) with x by (field; lra). lra.
Qed.

Lemma vec_neq_sqr (A B : Vec) :
  A <> B ->
  (fst B - fst A) * (fst B - fst A) + (snd B - snd A) * (snd B - snd A) <> 0.
Proof.
  destruct A as [ax ay], B as [bx by_]. simpl. intros Hne H.
  apply sum_sqr_zero in H. destruct H as [Hx Hy].
  apply Hne. f_equal; lra.
Qed.

Lemma clamp_bounds (t : R) : 0 <= Rmax 0 (Rmin 1 t) <= 1.
Proof.
  unfold Rmax, Rmin.
  destruct (Rle_dec 1 t); destruct (Rle_dec 0 _); lra.
Qed.

Lemma clamp_inside (t : R) : 0 <= t <= 1 -> Rmax 0 (Rmin 1 t) = t.
Proof.
  intros [H0 H1]. unfold Rmax, Rmin.
  destruct (Rle_dec 1 t); destruct (Rle_dec 0 _); lra.
Qed.

Lemma clamp_above (t : R) : 1 <= t -> Rmax 0 (Rmin 1 t) = 1.
Proof.
  intros H1. unfold Rmax, Rmin.
  destruct (Rle_dec 1 t); destruct (Rle_dec 0 _); lra.
Qed.

Lemma clamp_below (t : R) : t <= 0 -> Rmax 0 (Rmin 1 t) = 0.
Proof.
  intros H1. unfold Rmax, Rmin.
  destruct (Rle_dec 1 t); destruct (Rle_dec 0 _); lra.
Qed.

(** ** [closest_point_on_segment] *)

Lemma closest_point_degenerate (A P : Vec) : closest_point_on_segment A A P = (A, 0).
Proof.
  destruct A as [ax ay], P as [px py]. unfold closest_point_on_segment.
  destruct (Req_dec_T _ 0) as [_ | Hne]; [reflexivity |].
  exfalso. apply Hne. ring.
Qed.

Lemma closest_point_distinct (A B P : Vec) :
  A <> B ->
  closest_point_on_segment A B P =
    (point_at A B (Rmax 0 (Rmin 1 (proj_param A B P))), Rmax 0 (Rmin 1 (proj_param A B P))).
Proof.
  intros Hne. pose proof (vec_neq_sqr A B Hne) as Hsq.
  destruct A as [ax ay], B as [bx by_], P as [px py].
  unfold closest_point_on_segment, point_at, proj_param, vector_add, vector_mul,
    vector_sub, dot. simpl in *.
  destruct (Req_dec_T _ 0) as [He | _]; [contradiction |].
  apply injective_projections; simpl; [| reflexivity].
  apply injective_projections; simpl; ring.
Qed.

Lemma closest_point_beyond_B (A B P : Vec) :
  A <> B ->
  0 <= dot (vector_sub P B) (vector_sub B A) ->
  closest_point_on_segment A B P = (B, 1).
Proof.
  intros Hne Hbeyond. rewrite (closest_point_distinct A B P Hne).
  pose proof (vec_neq_sqr A B Hne) as Hsq.
  assert (Hge : 1 <= proj_param A B P).
  { destruct A as [ax ay], B as [bx by_], P as [px py].
    unfold proj_param, dot, vector_sub in *. simpl in *.
    apply div_ge_1; [now apply sum_sqr_pos | nra]. }
  rewrite (clamp_above _ Hge).
  destruct A as [ax ay], B as [bx by_].
  unfold point_at, vector_add, vector_mul, vector_sub. simpl.
  apply injective_projections; simpl; [| reflexivity].
  apply injective_projections; simpl; ring.
Qed.

(** C6: for a segment with distinct end points the result [(Q, t)] has
    [0 <= t <= 1] and [Q = A + t*(B - A)]; when [P] lies beyond [B] (its
    projection on the line is at or past [B]) the result is [(B, 1)]; and for
    [A = B] the result is [(A, 0)], the branch taken before the quotient is
    formed. *)
Theorem closest_point_on_segment_spec :
  (forall A B P : Vec,
      A <> B ->
      0 <= snd (closest_point_on_segment A B P) <= 1 /\
      fst (closest_point_on_segment A B P)
        = point_at A B (snd (closest_point_on_segment A B P)))
  /\ (forall A B P : Vec,
         A <> B ->
         0 <= dot (vector_sub P B) (vector_sub B A) ->
         closest_point_on_segment A B P = (B, 1))
  /\ (forall A P : Vec, closest_point_on_segment A A P = (A, 0)).
Proof.
  split; [| split].
  - intros A B P Hne. rewrite (closest_point_distinct A B P Hne). simpl.
    split; [apply clamp_bounds | reflexivity].
  - intros A B P Hne Hbeyond. apply closest_point_beyond_B; assumption.
  - apply closest_point_degenerate.
Qed.

Lemma closest_point_on_segment_spec_witness :
  (0 <= snd (closest_point_on_segment (0, 0) (2, 0) (5, 1)) <= 1 /\
   fst (closest_point_on_segment (0, 0) (2, 0) (5, 1))
     = point_at (0, 0) (2, 0) (snd (closest_point_on_segment (0, 0) (2, 0) (5, 1))))
  /\ closest_point_on_segment (0, 0) (2, 0) (5, 1) = ((2, 0), 1).
Proof.
  assert (Hne : ((0, 0) : Vec) <> (2, 0)).
  { intros H. injection H as H. lra. }
  split.
  - apply (proj1 closest_point_on_segment_spec). exact Hne.
  - apply (proj1 (proj2 closest_point_on_segment_spec)).
    + exact Hne.
    + unfold dot, vector_sub. simpl. lra.
Defined.

(** The clamped parameter minimizes the quadratic [s*s*d - 2*s*c] over
    [[0,1]], where [c = u*d] and [u] is the unclamped parameter. *)
Lemma clamp_minimizes_quadratic (d c u s : R) :
  0 < d -> c = u * d -> 0 <= s <= 1 ->
  Rmax 0 (Rmin 1 u) * Rmax 0 (Rmin 1 u) * d - 2 * Rmax 0 (Rmin 1 u) * c
    <= s * s * d - 2 * s * c.
Proof.
  intros Hd Hc [Hs0 Hs1]. subst c.
  destruct (Rle_lt_dec u 0) as [Hu0 | Hu0].
  - rewrite (clamp_below u Hu0).
    assert (H1 : 0 <= s * s * d).
    { apply Rmult_le_pos; [apply (Rle_0_sqr s) | lra]. }
    assert (H2 : 0 <= s * (- u) * d) by (repeat apply Rmult_le_pos; lra).
    nra.
  - destruct (Rle_lt_dec u 1) as [Hu1 | Hu1].
    + rewrite (clamp_inside u) by lra.
      assert (H1 : 0 <= (s - u) * (s - u) * d).
      { apply Rmult_le_pos; [apply (Rle_0_sqr (s - u)) | lra]. }
      nra.
    + rewrite (clamp_above u) by lra.
      assert (H1 : 0 <= (1 - s) * (2 * u - 1 - s) * d)
        by (repeat apply Rmult_le_pos; lra).
      nra.
Qed.

(** For every segment, degenerate or not, the returned point is the point of
    the segment at the returned parameter, which lies in [[0,1]]. *)
Lemma closest_point_in_segment (A B P : Vec) :
  0 <= snd (closest_point_on_segment A B P) <= 1
  /\ fst (closest_point_on_segment A B P)
     = point_at A B (snd (closest_point_on_segment A B P)).
Proof.
  destruct A as [ax ay], B as [bx by_], P as [px py].
  unfold closest_point_on_segment, point_at, vector_add, vector_mul, vector_sub.
  destruct (Req_dec_T _ 0) as [_ | _]; simpl.
  - split; [lra |]. apply injective_projections; simpl; ring.
  - split; [apply clamp_bounds |]. apply injective_projections; simpl; ring.
Qed.

Lemma closest_point_distance_minimal (A B P : Vec) (t' : R) :
  0 <= t' <= 1 ->
  distance P (fst (closest_point_on_segment A B P)) <= distance P (point_at A B t').
Proof.
  intros Ht'.
  destruct A as [ax ay], B as [bx by_], P as [px py].
  unfold distance, point_at, closest_point_on_segment, hypot, vector_add, vector_mul,
    vector_sub.
  destruct (Req_dec_T _ 0) as [Hz | Hnz]; simpl; apply sqrt_le_1_alt.
  - apply sum_sqr_zero in Hz. destruct Hz as [Hx Hy].
    rewrite Hx, Hy. apply Req_le. ring.
  - set (d := (bx - ax) * (bx - ax) + (by_ - ay) * (by_ - ay)) in *.
    set (c := (px - ax) * (bx - ax) + (py - ay) * (by_ - ay)).
    set (t := Rmax 0 (Rmin 1 (c / d))).
    assert (Hd : 0 < d) by (apply sum_sqr_pos; exact Hnz).
    assert (Hq : t * t * d - 2 * t * c <= t' * t' * d - 2 * t' * c).
    { apply clamp_minimizes_quadratic; [exact Hd | field; lra | exact Ht']. }
    replace ((px - (ax + t * (bx - ax))) * (px - (ax + t * (bx - ax))) +
             (py - (ay + t * (by_ - ay))) * (py - (ay + t * (by_ - ay))))
      with ((px - ax) * (px - ax) + (py - ay) * (py - ay) + (t * t * d - 2 * t * c))
      by (unfold d, c; ring).
    replace ((px - (ax + (bx - ax) * t')) * (px - (ax + (bx - ax) * t')) +
             (py - (ay + (by_ - ay) * t')) * (py - (ay + (by_ - ay) * t')))
      with ((px - ax) * (px - ax) + (py - ay) * (py - ay) + (t' * t' * d - 2 * t' * c))
      by (unfold d, c; ring).
    lra.
Qed.

(** C10: the returned point [Q] is a point of the segment, [A + t*(B - A)]
    for the returned [t] in [[0,1]], and no point [A + t'*(B - A)] of the
    segment, [0 <= t' <= 1], is nearer to [P] than [Q] is. *)
Theorem closest_point_on_segment_minimizes (A B P : Vec) :
  (0 <= snd (closest_point_on_segment A B P) <= 1
   /\ fst (closest_point_on_segment A B P)
      = point_at A B (snd (closest_point_on_segment A B P)))
  /\ (forall t' : R,
         0 <= t' <= 1 ->
         distance P (fst (closest_point_on_segment A B P))
           <= distance P (point_at A B t')).
Proof.
  split.
  - apply closest_point_in_segment.
  - intros t' Ht'. apply closest_point_distance_minimal. exact Ht'.
Qed.

Lemma closest_point_on_segment_minimizes_witness :
  distance (5, 1) (fst (closest_point_on_segment (0, 0) (2, 0) (5, 1)))
    <= distance (5, 1) (point_at (0, 0) (2, 0) (1 / 2)).
Proof.
  apply (proj2 (closest_point_on_segment_minimizes (0, 0) (2, 0) (5, 1)) (1 / 2)). lra.
Defined.

(** ** [compute_hexagon_vertices] *)

Lemma compute_hexagon_vertices_unfold (center : Vec) (radius rotation : R) :
  compute_hexagon_vertices center radius rotation
    = map (hexagon_vertex center radius rotation) (seq 0 6).
Proof. reflexivity. Qed.

Lemma hexagon_vertex_period (center : Vec) (radius rotation : R) (i : nat) :
  hexagon_vertex center radius (rotation + 2 * PI) i
    = hexagon_vertex center radius rotation i.
Proof.
  destruct center as [cx cy]. unfold hexagon_vertex.
  replace (rotation + 2 * PI + INR i * (PI / 3))
    with (rotation + INR i * (PI / 3) + 2 * INR 1 * PI) by (simpl; ring).
  rewrite cos_period, sin_period. reflexivity.
Qed.

(** C7: the result has exactly six points, the point of index [k] is
    [c + r*(cos(rotation + k*pi/3), sin(rotation + k*pi/3))], and a rotation
    advanced by a full turn gives the same points (index by index, hence the
    same set). *)
Theorem compute_hexagon_vertices_spec (center : Vec) (radius rotation : R) :
  length (compute_hexagon_vertices center radius rotation) = 6%nat
  /\ (forall k : nat,
         (k < 6)%nat ->
         nth k (compute_hexagon_vertices center radius rotation) (0, 0)
           = (fst center + radius * cos (rotation + INR k * (PI / 3)),
              snd center + radius * sin (rotation + INR k * (PI / 3))))
  /\ compute_hexagon_vertices center radius (rotation + 2 * PI)
       = compute_hexagon_vertices center radius rotation.
Proof.
  rewrite !compute_hexagon_vertices_unfold. split; [| split].
  - rewrite length_map, length_seq. reflexivity.
  - intros k Hk.
    rewrite (nth_indep _ (0, 0) (hexagon_vertex center radius rotation 0%nat))
      by (rewrite length_map, length_seq; exact Hk).
    rewrite map_nth, seq_nth by exact Hk.
    destruct center as [cx cy]. reflexivity.
  - apply map_ext. intros i. apply hexagon_vertex_period.
Qed.

Lemma compute_hexagon_vertices_spec_witness :
  nth 2 (compute_hexagon_vertices (400, 300) 250 0) (0, 0)
    = (fst (400, 300) + 250 * cos (0 + INR 2 * (PI / 3)),
       snd (400, 300) + 250 * sin (0 + INR 2 * (PI / 3))).
Proof.
  apply (proj1 (proj2 (compute_hexagon_vertices_spec (400, 300) 250 0)) 2%nat). lia.
Defined.

(** ** [normalize] and the inward normal *)

Lemma normalize_zero_or_unit (vec : Vec) :
  normalize vec = (0, 0) \/ dot (normalize vec) (normalize vec) = 1.
Proof.
  destruct vec as [x y]. unfold normalize.
  destruct (Req_dec_T (hypot x y) 0) as [Hz | Hnz]; [left; reflexivity | right].
  unfold dot. simpl. pose proof (hypot_sqr x y) as Hs.
  replace (x / hypot x y * (x / hypot x y) + y / hypot x y * (y / hypot x y))
    with ((x * x + y * y) / (hypot x y * hypot x y)) by (field; exact Hnz).
  rewrite Hs. field. rewrite <- Hs. nra.
Qed.

Lemma normalize_perp (x y : R) : dot (normalize (- y, x)) (x, y) = 0.
Proof.
  unfold normalize.
  destruct (Req_dec_T (hypot (- y) x) 0) as [Hz | Hnz]; unfold dot; simpl.
  - ring.
  - field. exact Hnz.
Qed.

(** The normal is the candidate or its opposite, whichever does not point
    away from the centre. *)
Lemma inward_normal_cases (center A B : Vec) :
  let candidate := normalize (- (snd B - snd A), fst B - fst A) in
  (dot candidate (to_center center A B) < 0
   /\ inward_normal center A B = vector_mul candidate (-1))
  \/ (0 <= dot candidate (to_center center A B)
      /\ inward_normal center A B = candidate).
Proof.
  unfold inward_normal, to_center. simpl.
  destruct (Rlt_dec _ 0) as [Hlt | Hge]; [left | right]; split;
    try reflexivity; [exact Hlt | lra].
Qed.

Lemma inward_normal_zero_or_unit (center A B : Vec) :
  inward_normal center A B = (0, 0)
  \/ dot (inward_normal center A B) (inward_normal center A B) = 1.
Proof.
  destruct (inward_normal_cases center A B) as [[_ ->] | [_ ->]];
    destruct (normalize_zero_or_unit (- (snd B - snd A), fst B - fst A)) as [Hz | Hu].
  - left. rewrite Hz. unfold vector_mul. simpl. f_equal; ring.
  - right. unfold dot, vector_mul in *. simpl in *. nra.
  - left. exact Hz.
  - right. exact Hu.
Qed.

Lemma inward_normal_perp (center A B : Vec) :
  dot (inward_normal center A B) (vector_sub B A) = 0.
Proof.
  pose proof (normalize_perp (fst B - fst A) (snd B - snd A)) as Hp.
  destruct (inward_normal_cases center A B) as [[_ ->] | [_ ->]];
    unfold dot, vector_mul, vector_sub in *; simpl in *; nra.
Qed.

Lemma inward_normal_unit (center A B : Vec) :
  A <> B ->
  dot (inward_normal center A B) (inward_normal center A B) = 1.
Proof.
  intros Hne.
  assert (Hnz : hypot (- (snd B - snd A)) (fst B - fst A) <> 0).
  { intros Hz. apply hypot_zero_iff in Hz. destruct Hz as [Hy Hx].
    apply Hne. destruct A, B. simpl in *. f_equal; lra. }
  assert (Hu : dot (normalize (- (snd B - snd A), fst B - fst A))
                   (normalize (- (snd B - snd A), fst B - fst A)) = 1).
  { destruct (normalize_zero_or_unit (- (snd B - snd A), fst B - fst A)) as [Hz | Hu];
      [| exact Hu].
    exfalso. unfold normalize in Hz.
    destruct (Req_dec_T _ 0) as [Hz' | _]; [contradiction |].
    injection Hz as H1 H2. pose proof (hypot_nonneg (- (snd B - snd A)) (fst B - fst A)).
    assert (Hpos : 0 < hypot (- (snd B - snd A)) (fst B - fst A)) by lra.
    apply Hnz. apply hypot_zero_iff. split.
    - apply (Rmult_eq_reg_r (/ hypot (- (snd B - snd A)) (fst B - fst A)));
        [unfold Rdiv in H1; lra | apply Rinv_neq_0_compat; exact Hnz].
    - apply (Rmult_eq_reg_r (/ hypot (- (snd B - snd A)) (fst B - fst A)));
        [unfold Rdiv in H2; lra | apply Rinv_neq_0_compat; exact Hnz]. }
  destruct (inward_normal_cases center A B) as [[_ ->] | [_ ->]].
  - unfold dot, vector_mul in *. simpl in *. nra.
  - exact Hu.
Qed.

(** C2: for a wall with distinct end points the normal the resolver selects
    (a unit vector perpendicular to the wall) has a non-negative dot product
    with the vector from the wall midpoint to the hexagon centre. *)
Theorem inward_normal_points_inward (center A B : Vec) :
  A <> B ->
  dot (inward_normal center A B) (inward_normal center A B) = 1
  /\ dot (inward_normal center A B) (vector_sub B A) = 0
  /\ 0 <= dot (inward_normal center A B) (to_center center A B).
Proof.
  intros Hne. split; [| split].
  - apply inward_normal_unit. exact Hne.
  - apply inward_normal_perp.
  - destruct (inward_normal_cases center A B) as [[Hlt ->] | [Hge ->]].
    + unfold dot, vector_mul in *. simpl in *. lra.
    + exact Hge.
Qed.

Lemma inward_normal_points_inward_witness :
  0 <= dot (inward_normal (400, 300) (390, 500) (410, 500))
           (to_center (400, 300) (390, 500) (410, 500)).
Proof.
  apply (inward_normal_points_inward (400, 300) (390, 500) (410, 500)).
  intros H. injection H as H. lra.
Defined.

(** ** The loop body [resolve_edge] *)

Lemma resolve_edge_resolved (cfg : Config) (A B : Vec) (st : SimState) :
  collides cfg A B st ->
  approach cfg A B st < 0 ->
  resolve_edge cfg A B st =
    let normal := inward_normal (HEX_CENTER cfg) A B in
    let v_wall := v_wall_at cfg A B (ball_pos st) in
    let rel_vel := rel_vel_at cfg A B st in
    {| ball_pos := (fst (ball_pos st) + fst normal * penetration cfg A B st,
                    snd (ball_pos st) + snd normal * penetration cfg A B st);
       ball_vel :=
         vector_add
           (vector_sub rel_vel
              (vector_mul normal ((1 + RESTIUTION cfg) * dot rel_vel normal)))
           v_wall;
       hex_rotation := hex_rotation st |}.
Proof.
  unfold collides, approach, rel_vel_at, v_wall_at, penetration, wall_dist, resolve_edge.
  intros Hc Ha. cbv zeta.
  destruct (Rlt_dec _ (BALL_RADIUS cfg)) as [_ | Hn]; [| contradiction].
  destruct (Rlt_dec _ 0) as [_ | Hn]; [| contradiction].
  reflexivity.
Qed.

Lemma resolve_edge_not_approaching (cfg : Config) (A B : Vec) (st : SimState) :
  0 <= approach cfg A B st ->
  resolve_edge cfg A B st = st.
Proof.
  unfold approach, rel_vel_at, v_wall_at, resolve_edge. intros Ha. cbv zeta.
  destruct (Rlt_dec _ (BALL_RADIUS cfg)) as [_ | _]; [| reflexivity].
  destruct (Rlt_dec _ 0) as [Hlt | _]; [lra | reflexivity].
Qed.

Lemma resolve_edge_no_contact (cfg : Config) (A B : Vec) (st : SimState) :
  BALL_RADIUS cfg <= wall_dist A B (ball_pos st) ->
  resolve_edge cfg A B st = st.
Proof.
  unfold wall_dist, resolve_edge. intros Hd. cbv zeta.
  destruct (Rlt_dec _ (BALL_RADIUS cfg)) as [Hlt | _]; [lra | reflexivity].
Qed.

(** ** A wall parallel to the x axis

    The scenarios below use a wall from [(x1, y)] to [(x2, y)] with the
    hexagon centre above it on the screen ([cy < y]): its inward normal is
    [(0, -1)]. *)

Lemma horizontal_distinct (x1 x2 y : R) : x1 < x2 -> ((x1, y) : Vec) <> (x2, y).
Proof. intros Hlt H. injection H as H. lra. Qed.

Lemma contact_point_horizontal (x1 x2 y px py : R) :
  x1 < x2 -> x1 <= px <= x2 ->
  contact_point (x1, y) (x2, y) (px, py) = (px, y).
Proof.
  intros Hlt [Hl Hr]. unfold contact_point.
  rewrite (closest_point_distinct _ _ _ (horizontal_distinct x1 x2 y Hlt)).
  assert (Hu : proj_param (x1, y) (x2, y) (px, py) = (px - x1) / (x2 - x1)).
  { unfold proj_param, dot, vector_sub. simpl. field. nra. }
  rewrite Hu. simpl.
  assert (Hd : 0 < x2 - x1) by lra.
  assert (H0 : 0 <= (px - x1) / (x2 - x1)).
  { apply Rmult_le_pos; [lra | left; apply Rinv_0_lt_compat; exact Hd]. }
  assert (H1 : (px - x1) / (x2 - x1) <= 1).
  { apply (Rmult_le_reg_r (x2 - x1)); [exact Hd |].
    replace ((px - x1) / (x2 - x1) * (x2 - x1)) with (px - x1) by (field; lra). lra. }
  rewrite clamp_inside by (split; assumption).
  unfold point_at, vector_add, vector_mul, vector_sub.
  apply injective_projections; simpl; field; lra.
Qed.

Lemma wall_dist_horizontal (x1 x2 y px py : R) :
  x1 < x2 -> x1 <= px <= x2 ->
  wall_dist (x1, y) (x2, y) (px, py) = Rabs (py - y).
Proof.
  intros Hlt Hin. unfold wall_dist.
  rewrite (contact_point_horizontal x1 x2 y px py Hlt Hin).
  unfold vector_sub, hypot. simpl.
  replace ((px - px) * (px - px) + (py - y) * (py - y)) with (Rsqr (py - y))
    by (unfold Rsqr; ring).
  apply sqrt_Rsqr_abs.
Qed.

Lemma inward_normal_horizontal (cx cy x1 x2 y : R) :
  x1 < x2 -> cy < y ->
  inward_normal (cx, cy) (x1, y) (x2, y) = (0, -1).
Proof.
  intros Hlt Hc.
  assert (Hm : hypot (- (y - y)) (x2 - x1) = x2 - x1).
  { unfold hypot.
    replace (- (y - y) * - (y - y) + (x2 - x1) * (x2 - x1))
      with ((x2 - x1) * (x2 - x1)) by ring.
    apply sqrt_square. lra. }
  unfold inward_normal, normalize. simpl. rewrite Hm.
  destruct (Req_dec_T (x2 - x1) 0) as [Hz | _]; [lra |].
  assert (Hdot : dot (- (y - y) / (x2 - x1), (x2 - x1) / (x2 - x1))
                     (vector_sub (cx, cy) ((x1 + x2) / 2, (y + y) / 2)) = cy - y).
  { unfold dot, vector_sub. simpl. field. lra. }
  rewrite Hdot.
  destruct (Rlt_dec (cy - y) 0) as [_ | Hn]; [| lra].
  unfold vector_mul. apply injective_projections; simpl; field; lra.
Qed.

Lemma floor_normal : inward_normal (HEX_CENTER still_config) floor_A floor_B = (0, -1).
Proof. apply inward_normal_horizontal; lra. Qed.

Lemma floor_contact (py : R) : contact_point floor_A floor_B (400, py) = (400, 500).
Proof. apply contact_point_horizontal; lra. Qed.

Lemma floor_dist (py : R) : wall_dist floor_A floor_B (400, py) = Rabs (py - 500).
Proof. apply wall_dist_horizontal; lra. Qed.

Lemma floor_wall_velocity (py : R) :
  v_wall_at still_config floor_A floor_B (400, py) = (0, 0).
Proof.
  unfold v_wall_at. rewrite floor_contact.
  unfold wall_velocity_at_point. simpl.
  apply injective_projections; simpl; ring.
Qed.

Lemma floor_collides (py : R) (vel : Vec) :
  Rabs (py - 500) < 10 ->
  collides still_config floor_A floor_B (ball_at (400, py) vel).
Proof. intros H. unfold collides. simpl. rewrite floor_dist. exact H. Qed.

Lemma floor_approach (py : R) (vel : Vec) :
  approach still_config floor_A floor_B (ball_at (400, py) vel) = - snd vel.
Proof.
  unfold approach, rel_vel_at. rewrite floor_normal. simpl ball_pos.
  rewrite floor_wall_velocity. unfold dot, vector_sub. simpl. ring.
Qed.

Lemma floor_penetration (py : R) (vel : Vec) :
  penetration still_config floor_A floor_B (ball_at (400, py) vel)
    = 10 - Rabs (py - 500).
Proof. unfold penetration. simpl. rewrite floor_dist. reflexivity. Qed.

Lemma Rabs_neg5 : Rabs (495 - 500) = 5.
Proof. unfold Rabs. destruct (Rcase_abs _); lra. Qed.

Lemma Rabs_pos2 : Rabs (502 - 500) = 2.
Proof. unfold Rabs. destruct (Rcase_abs _); lra. Qed.

(** The state after the wall [floor_A]-[floor_B] resolves a ball at
    [(400, py)] that overlaps it and moves down the screen. *)
Lemma floor_resolved (py : R) (vel : Vec) :
  Rabs (py - 500) < 10 -> 0 < snd vel ->
  resolve_edge still_config floor_A floor_B (ball_at (400, py) vel)
    = {| ball_pos := (400, py - (10 - Rabs (py - 500)));
         ball_vel := (fst vel, - (9 / 10) * snd vel);
         hex_rotation := 0 |}.
Proof.
  intros Hc Hv.
  rewrite resolve_edge_resolved;
    [| apply floor_collides; exact Hc | rewrite floor_approach; lra].
  cbv zeta. rewrite floor_penetration, floor_normal.
  unfold rel_vel_at. simpl ball_pos. rewrite floor_wall_velocity.
  unfold vector_add, vector_sub, vector_mul, dot. simpl.
  f_equal; apply injective_projections; simpl; ring.
Qed.

(** ** Velocity response *)

(** C1: when a wall is in contact and the approach gate passes, the new ball
    velocity is [(v - w) - (1 + restitution)*((v - w).n)*n + w], with [n] the
    inward normal and [w] the wall velocity at the contact point; and for a
    wall at rest with normal [(0, -1)], ball velocity [(0, 10)] and
    restitution [0.9], the new velocity is [(0, -9)]. *)
Theorem collision_response_velocity :
  (forall (cfg : Config) (A B : Vec) (st : SimState),
      collides cfg A B st ->
      approach cfg A B st < 0 ->
      let n := inward_normal (HEX_CENTER cfg) A B in
      let w := v_wall_at cfg A B (ball_pos st) in
      let v := ball_vel st in
      ball_vel (resolve_edge cfg A B st)
        = vector_add
            (vector_sub (vector_sub v w)
               (vector_mul n ((1 + RESTIUTION cfg) * dot (vector_sub v w) n)))
            w)
  /\ (let st := ball_at (400, 495) (0, 10) in
      HEX_ANGULAR_SPEED still_config = 0
      /\ RESTIUTION still_config = 9 / 10
      /\ inward_normal (HEX_CENTER still_config) floor_A floor_B = (0, -1)
      /\ v_wall_at still_config floor_A floor_B (ball_pos st) = (0, 0)
      /\ collides still_config floor_A floor_B st
      /\ approach still_config floor_A floor_B st < 0
      /\ ball_vel (resolve_edge still_config floor_A floor_B st) = (0, -9)).
Proof.
  split.
  - intros cfg A B st Hc Ha. rewrite (resolve_edge_resolved cfg A B st Hc Ha).
    reflexivity.
  - cbv zeta.
    assert (Hc : Rabs (495 - 500) < 10) by (rewrite Rabs_neg5; lra).
    repeat split.
    + apply floor_normal.
    + apply floor_wall_velocity.
    + apply floor_collides. exact Hc.
    + rewrite floor_approach. simpl. lra.
    + rewrite (floor_resolved 495 (0, 10) Hc) by (simpl; lra). simpl.
      apply injective_projections; simpl; lra.
Qed.

Lemma collision_response_velocity_witness :
  ball_vel (resolve_edge still_config floor_A floor_B (ball_at (400, 495) (0, 10)))
    = vector_add
        (vector_sub (vector_sub (0, 10) (v_wall_at still_config floor_A floor_B (400, 495)))
           (vector_mul (inward_normal (400, 300) floor_A floor_B)
              ((1 + 9 / 10)
               * dot (vector_sub (0, 10) (v_wall_at still_config floor_A floor_B (400, 495)))
                     (inward_normal (400, 300) floor_A floor_B))))
        (v_wall_at still_config floor_A floor_B (400, 495)).
Proof.
  apply (proj1 collision_response_velocity still_config floor_A floor_B
               (ball_at (400, 495) (0, 10))).
  - apply floor_collides. rewrite Rabs_neg5. lra.
  - rewrite floor_approach. simpl. lra.
Defined.

(** C3: across one resolved collision the squared speed of the ball relative
    to the wall at the contact point does not grow, for a restitution
    coefficient of at most 1 (a coefficient of restitution is not below 0; the
    proof needs no more than [-1 <= restitution]).  Gravity and damping act
    outside the resolution and play no part in it. *)
Theorem collision_energy_nonincreasing (cfg : Config) (A B : Vec) (st : SimState) :
  -1 <= RESTIUTION cfg <= 1 ->
  collides cfg A B st ->
  approach cfg A B st < 0 ->
  let w := v_wall_at cfg A B (ball_pos st) in
  let rel_vel := vector_sub (ball_vel st) w in
  let rel_vel' := vector_sub (ball_vel (resolve_edge cfg A B st)) w in
  dot rel_vel' rel_vel' <= dot rel_vel rel_vel.
Proof.
  intros [He0 He1] Hc Ha. cbv zeta.
  rewrite (resolve_edge_resolved cfg A B st Hc Ha). cbv zeta. simpl ball_vel.
  unfold approach in Ha. unfold rel_vel_at in *.
  set (w := v_wall_at cfg A B (ball_pos st)) in *.
  set (n := inward_normal (HEX_CENTER cfg) A B) in *.
  set (e := RESTIUTION cfg) in *.
  assert (Hn : dot n n = 1).
  { destruct (inward_normal_zero_or_unit (HEX_CENTER cfg) A B) as [Hz | Hu];
      [| exact Hu].
    exfalso. fold n in Hz. rewrite Hz in Ha. unfold dot in Ha. simpl in Ha. lra. }
  destruct (vector_sub (ball_vel st) w) as [rx ry] eqn:Hr.
  destruct n as [nx ny], w as [wx wy].
  unfold dot, vector_add, vector_sub, vector_mul in *. simpl in *.
  set (s := rx * nx + ry * ny) in *.
  assert (Hs : 0 <= (1 + e) * (1 - e) * (s * s)).
  { apply Rmult_le_pos; [apply Rmult_le_pos; lra | apply (Rle_0_sqr s)]. }
  replace ((rx - nx * ((1 + e) * s) + wx - wx) * (rx - nx * ((1 + e) * s) + wx - wx) +
           (ry - ny * ((1 + e) * s) + wy - wy) * (ry - ny * ((1 + e) * s) + wy - wy))
    with (rx * rx + ry * ry - 2 * (1 + e) * s * s
          + (1 + e) * (1 + e) * s * s * (nx * nx + ny * ny))
    by (unfold s; ring).
  rewrite Hn. nra.
Qed.

Lemma collision_energy_nonincreasing_witness :
  let st := ball_at (400, 495) (0, 10) in
  let w := v_wall_at still_config floor_A floor_B (ball_pos st) in
  dot (vector_sub (ball_vel (resolve_edge still_config floor_A floor_B st)) w)
      (vector_sub (ball_vel (resolve_edge still_config floor_A floor_B st)) w)
    <= dot (vector_sub (ball_vel st) w) (vector_sub (ball_vel st) w).
Proof.
  apply (collision_energy_nonincreasing still_config floor_A floor_B
           (ball_at (400, 495) (0, 10))).
  - simpl. lra.
  - apply floor_collides. rewrite Rabs_neg5. lra.
  - rewrite floor_approach. simpl. lra.
Defined.

(** ** The approach gate *)

(** C5: a wall the ball overlaps ([dist < radius]) while the relative
    velocity has a non-negative component along the normal leaves the ball's
    position and velocity as they were. *)
Theorem overlapping_but_not_approaching_is_skipped
    (cfg : Config) (A B : Vec) (st : SimState) :
  collides cfg A B st ->
  0 <= approach cfg A B st ->
  ball_pos (resolve_edge cfg A B st) = ball_pos st
  /\ ball_vel (resolve_edge cfg A B st) = ball_vel st.
Proof.
  intros _ Ha. rewrite (resolve_edge_not_approaching cfg A B st Ha).
  split; reflexivity.
Qed.

Lemma overlapping_but_not_approaching_is_skipped_witness :
  let st := ball_at (400, 495) (0, -10) in
  ball_pos (resolve_edge still_config floor_A floor_B st) = ball_pos st
  /\ ball_vel (resolve_edge still_config floor_A floor_B st) = ball_vel st.
Proof.
  apply (overlapping_but_not_approaching_is_skipped still_config floor_A floor_B
           (ball_at (400, 495) (0, -10))).
  - apply floor_collides. rewrite Rabs_neg5. lra.
  - rewrite floor_approach. simpl. lra.
Defined.

(** ** Position correction *)

Lemma approach_wall_distinct (cfg : Config) (A B : Vec) (st : SimState) :
  approach cfg A B st < 0 -> A <> B.
Proof.
  intros Ha Heq. subst B. unfold approach in Ha.
  assert (Hz : inward_normal (HEX_CENTER cfg) A A = (0, 0)).
  { destruct (inward_normal_zero_or_unit (HEX_CENTER cfg) A A) as [Hz | Hu];
      [exact Hz |].
    exfalso.
    assert (Hh : hypot (- (snd A - snd A)) (fst A - fst A) = 0)
      by (apply hypot_zero_iff; split; ring).
    destruct (inward_normal_cases (HEX_CENTER cfg) A A) as [[_ He] | [_ He]];
      rewrite He in Hu; unfold normalize in Hu;
      destruct (Req_dec_T _ 0) as [_ | Hnz]; try contradiction;
      unfold dot, vector_mul in Hu; simpl in Hu; lra. }
  rewrite Hz in Ha. unfold dot in Ha. simpl in Ha. lra.
Qed.

(** In the plane, a vector orthogonal to [T <> 0] has all its length along a
    unit vector orthogonal to [T]. *)
Lemma orthogonal_component (dx dy nx ny tx ty : R) :
  tx * tx + ty * ty <> 0 ->
  dx * tx + dy * ty = 0 ->
  nx * tx + ny * ty = 0 ->
  nx * nx + ny * ny = 1 ->
  (dx * nx + dy * ny) * (dx * nx + dy * ny) = dx * dx + dy * dy.
Proof.
  intros Ht Hd Hn Hu.
  assert (Hcross : (dx * ny - dy * nx) * (tx * tx + ty * ty) = 0).
  { replace ((dx * ny - dy * nx) * (tx * tx + ty * ty))
      with ((dx * tx + dy * ty) * (ny * tx - nx * ty)
            - (nx * tx + ny * ty) * (dy * tx - dx * ty)) by ring.
    rewrite Hd, Hn. ring. }
  apply Rmult_integral in Hcross. destruct Hcross as [Hc | Hc]; [| contradiction].
  replace (dx * dx + dy * dy) with ((dx * dx + dy * dy) * (nx * nx + ny * ny))
    by (rewrite Hu; ring).
  replace ((dx * dx + dy * dy) * (nx * nx + ny * ny))
    with ((dx * nx + dy * ny) * (dx * nx + dy * ny)
          + (dx * ny - dy * nx) * (dx * ny - dy * nx)) by ring.
  rewrite Hc. ring.
Qed.

(** When the closest point is the foot of the perpendicular from the ball
    centre and the centre is on the inner side of the wall, [dist] is the
    distance along the normal. *)
Lemma wall_dist_along_normal (cfg : Config) (A B P : Vec) :
  A <> B ->
  0 <= proj_param A B P <= 1 ->
  0 <= normal_distance cfg A B P ->
  wall_dist A B P = normal_distance cfg A B P.
Proof.
  intros Hne Hu Hin.
  pose proof (inward_normal_unit (HEX_CENTER cfg) A B Hne) as Hunit.
  pose proof (inward_normal_perp (HEX_CENTER cfg) A B) as Hperp.
  pose proof (vec_neq_sqr A B Hne) as Hsq.
  unfold wall_dist, contact_point, normal_distance in *.
  rewrite (closest_point_distinct A B P Hne). simpl fst.
  rewrite (clamp_inside _ Hu).
  assert (Hfoot : proj_param A B P * dot (vector_sub B A) (vector_sub B A)
                  = dot (vector_sub P A) (vector_sub B A)).
  { unfold proj_param. field.
    destruct A, B. unfold dot, vector_sub. simpl in *. exact Hsq. }
  set (u := proj_param A B P) in *.
  destruct (inward_normal (HEX_CENTER cfg) A B) as [nx ny].
  destruct A as [ax ay], B as [bx by_], P as [px py].
  unfold point_at, hypot, dot, vector_add, vector_mul, vector_sub in *. simpl in *.
  set (dx := px - (ax + (bx - ax) * u)).
  set (dy := py - (ay + (by_ - ay) * u)).
  assert (Hd : dx * (bx - ax) + dy * (by_ - ay) = 0) by (unfold dx, dy; nra).
  assert (Heq : (px - ax) * nx + (py - ay) * ny = dx * nx + dy * ny)
    by (unfold dx, dy; nra).
  rewrite Heq in *.
  rewrite <- (orthogonal_component dx dy nx ny (bx - ax) (by_ - ay) Hsq Hd Hperp Hunit).
  apply sqrt_square. exact Hin.
Qed.

(** X21: when the ball centre is still on the inner side of the wall and its
    closest point on the wall is the foot of its perpendicular, a resolved
    collision leaves the centre at distance exactly [BALL_RADIUS] from the
    wall along the inward normal. *)
Theorem penetration_correction_inner_side (cfg : Config) (A B : Vec) (st : SimState) :
  collides cfg A B st ->
  approach cfg A B st < 0 ->
  0 <= proj_param A B (ball_pos st) <= 1 ->
  0 <= normal_distance cfg A B (ball_pos st) ->
  normal_distance cfg A B (ball_pos (resolve_edge cfg A B st)) = BALL_RADIUS cfg.
Proof.
  intros Hc Ha Hu Hin.
  pose proof (approach_wall_distinct cfg A B st Ha) as Hne.
  pose proof (inward_normal_unit (HEX_CENTER cfg) A B Hne) as Hunit.
  pose proof (wall_dist_along_normal cfg A B (ball_pos st) Hne Hu Hin) as Hd.
  rewrite (resolve_edge_resolved cfg A B st Hc Ha). cbv zeta. simpl ball_pos.
  unfold penetration. rewrite Hd.
  unfold normal_distance in *.
  destruct (inward_normal (HEX_CENTER cfg) A B) as [nx ny].
  destruct A as [ax ay], (ball_pos st) as [px py].
  unfold dot, vector_sub in *. simpl in *.
  set (r := BALL_RADIUS cfg). set (s := (px - ax) * nx + (py - ay) * ny).
  replace ((px + nx * (r - s) - ax) * nx + (py + ny * (r - s) - ay) * ny)
    with (s + (r - s) * (nx * nx + ny * ny)) by (unfold s; ring).
  rewrite Hunit. ring.
Qed.

Lemma penetration_correction_inner_side_witness :
  normal_distance still_config floor_A floor_B
    (ball_pos (resolve_edge still_config floor_A floor_B (ball_at (400, 495) (0, 10))))
  = BALL_RADIUS still_config.
Proof.
  apply (penetration_correction_inner_side still_config floor_A floor_B
           (ball_at (400, 495) (0, 10))).
  - apply floor_collides. rewrite Rabs_neg5. lra.
  - rewrite floor_approach. simpl. lra.
  - unfold proj_param, dot, vector_sub, floor_A, floor_B. simpl. lra.
  - unfold normal_distance. rewrite floor_normal.
    unfold dot, vector_sub, floor_A. simpl. lra.
Defined.

(** C4: the push-out does not always clear the wall.  A ball centre that has
    crossed the wall, at [(400, 502)], two pixels beyond a wall at [y = 500]
    and moving on at [(0, 10)], overlaps the wall ([dist = 2 < 10]) and passes
    the gate; the correction moves it by [10 - 2] only, to [(400, 494)], 6 from
    the wall along the normal and as the loop measures [dist]: the ball still
    overlaps the wall by 4. *)
Lemma penetration_correction_counterexample :
  let st := ball_at (400, 502) (0, 10) in
  collides still_config floor_A floor_B st
  /\ 0 < penetration still_config floor_A floor_B st
  /\ approach still_config floor_A floor_B st < 0
  /\ ball_pos (resolve_edge still_config floor_A floor_B st) = (400, 494)
  /\ normal_distance still_config floor_A floor_B
       (ball_pos (resolve_edge still_config floor_A floor_B st)) = 6
  /\ wall_dist floor_A floor_B
       (ball_pos (resolve_edge still_config floor_A floor_B st)) = 6
  /\ ~ (BALL_RADIUS still_config
        <= normal_distance still_config floor_A floor_B
             (ball_pos (resolve_edge still_config floor_A floor_B st))).
Proof.
  cbv zeta.
  assert (Hc : Rabs (502 - 500) < 10) by (rewrite Rabs_pos2; lra).
  assert (Hpos : ball_pos (resolve_edge still_config floor_A floor_B
                             (ball_at (400, 502) (0, 10))) = (400, 494)).
  { rewrite (floor_resolved 502 (0, 10) Hc) by (simpl; lra). simpl.
    rewrite Rabs_pos2. apply injective_projections; simpl; lra. }
  assert (Hnd : normal_distance still_config floor_A floor_B (400, 494) = 6).
  { unfold normal_distance. rewrite floor_normal.
    unfold dot, vector_sub, floor_A. simpl. lra. }
  rewrite Hpos, Hnd.
  repeat split.
  - apply floor_collides. exact Hc.
  - rewrite floor_penetration, Rabs_pos2. lra.
  - rewrite floor_approach. simpl. lra.
  - rewrite floor_dist. unfold Rabs. destruct (Rcase_abs _); lra.
  - simpl. lra.
Qed.

(** The foot condition is needed as well: a ball whose closest point is the
    end [floor_B] of the wall, at [(414, 497)] with [dist = 5], is moved by 5
    along the normal and ends 8 from the wall's line. *)
Lemma penetration_correction_at_endpoint :
  let st := ball_at (414, 497) (0, 10) in
  contact_point floor_A floor_B (ball_pos st) = floor_B
  /\ wall_dist floor_A floor_B (ball_pos st) = 5
  /\ approach still_config floor_A floor_B st < 0
  /\ 0 <= normal_distance still_config floor_A floor_B (ball_pos st)
  /\ normal_distance still_config floor_A floor_B
       (ball_pos (resolve_edge still_config floor_A floor_B st)) = 8.
Proof.
  cbv zeta.
  assert (Hq : contact_point floor_A floor_B (414, 497) = floor_B).
  { unfold contact_point. rewrite closest_point_beyond_B; [reflexivity | |].
    - apply horizontal_distinct. lra.
    - unfold dot, vector_sub, floor_A, floor_B. simpl. lra. }
  assert (Hd : wall_dist floor_A floor_B (414, 497) = 5).
  { unfold wall_dist. rewrite Hq. unfold hypot, vector_sub, floor_B. simpl.
    replace ((414 - 410) * (414 - 410) + (497 - 500) * (497 - 500)) with (5 * 5) by lra.
    apply sqrt_square. lra. }
  assert (Hw : v_wall_at still_config floor_A floor_B (414, 497) = (0, 0)).
  { unfold v_wall_at. rewrite Hq. unfold wall_velocity_at_point. simpl.
    apply injective_projections; simpl; ring. }
  assert (Ha : approach still_config floor_A floor_B (ball_at (414, 497) (0, 10)) < 0).
  { unfold approach, rel_vel_at. rewrite floor_normal. simpl ball_pos. rewrite Hw.
    unfold dot, vector_sub. simpl. lra. }
  assert (Hc : collides still_config floor_A floor_B (ball_at (414, 497) (0, 10))).
  { unfold collides. simpl ball_pos. rewrite Hd. simpl. lra. }
  split; [exact Hq | split; [exact Hd | split; [exact Ha | split]]].
  - unfold normal_distance. rewrite floor_normal.
    unfold dot, vector_sub, floor_A. simpl. lra.
  - rewrite (resolve_edge_resolved _ _ _ _ Hc Ha). cbv zeta.
    unfold normal_distance, penetration. simpl ball_pos.
    change (inward_normal (400, 300) floor_A floor_B)
      with (inward_normal (HEX_CENTER still_config) floor_A floor_B).
    rewrite Hd, floor_normal. unfold dot, vector_sub, floor_A. simpl. lra.
Qed.

(** ** Free fall *)

(** Vertical velocity and position after [n] ticks of gravity, integration
    and a damping factor of 1. *)
Lemma free_motion_run (cfg : Config) (dt : R) (n : nat) :
  DAMPING cfg = 1 ->
  forall st : SimState,
    snd (ball_vel (run_ticks (free_motion cfg dt) n st))
      = snd (ball_vel st) + GRAVITY cfg * dt * INR n
    /\ snd (ball_pos (run_ticks (free_motion cfg dt) n st))
       = snd (ball_pos st) + INR n * dt * snd (ball_vel st)
         + GRAVITY cfg * dt * dt * (INR n * (INR n + 1) / 2).
Proof.
  intros Hdamp. induction n as [| n IH]; intros st.
  - simpl. split; lra.
  - change (run_ticks (free_motion cfg dt) (S n) st)
      with (run_ticks (free_motion cfg dt) n (free_motion cfg dt st)).
    destruct (IH (free_motion cfg dt st)) as [Hv Hp].
    rewrite Hv, Hp, S_INR. simpl. rewrite Hdamp. split; nra.
Qed.

Lemma INR_60 : INR 60 = 60.
Proof. rewrite INR_IZR_INZ. reflexivity. Qed.

(** C8, as the code has it: from rest, with a damping factor of 1, [n] ticks
    of length [dt] move the ball down by [GRAVITY*dt*dt*n*(n+1)/2], because
    each tick adds gravity to the velocity before it moves the ball.  Over one
    second at 60 ticks per second and gravity 800 that is [1220/3], about
    406.67, not 400. *)
Theorem free_fall_displacement (cfg : Config) (dt : R) (n : nat) (st : SimState) :
  DAMPING cfg = 1 ->
  snd (ball_vel st) = 0 ->
  snd (ball_pos (run_ticks (free_motion cfg dt) n st)) - snd (ball_pos st)
    = GRAVITY cfg * dt * dt * (INR n * (INR n + 1) / 2).
Proof.
  intros Hdamp Hv.
  destruct (free_motion_run cfg dt n Hdamp st) as [_ Hp].
  rewrite Hp, Hv. ring.
Qed.

Lemma free_fall_displacement_witness :
  snd (ball_pos (run_ticks (free_motion free_fall_config (1 / FPS free_fall_config)) 60
                   (centre_at_rest free_fall_config)))
  - snd (ball_pos (centre_at_rest free_fall_config))
  = 1220 / 3.
Proof.
  rewrite (free_fall_displacement free_fall_config (1 / FPS free_fall_config) 60
             (centre_at_rest free_fall_config) eq_refl eq_refl).
  rewrite INR_60. simpl. field.
Defined.

(** C8 fails: one second of the update at the configured 60 ticks per second
    moves the ball by [1220/3], not by 400. *)
Lemma free_fall_counterexample :
  let cfg := free_fall_config in
  let st' := run_ticks (free_motion cfg (1 / FPS cfg)) 60 (centre_at_rest cfg) in
  GRAVITY cfg = 800 /\ DAMPING cfg = 1 /\ HEX_ANGULAR_SPEED cfg = 0
  /\ snd (ball_pos st') - snd (ball_pos (centre_at_rest cfg)) = 1220 / 3
  /\ snd (ball_pos st') - snd (ball_pos (centre_at_rest cfg)) <> 400.
Proof.
  cbv zeta.
  destruct (free_motion_run free_fall_config (1 / FPS free_fall_config) 60 eq_refl
              (centre_at_rest free_fall_config)) as [_ Hp].
  rewrite Hp, INR_60. simpl. repeat split; lra.
Qed.

(** ** The loop body and the function [tick] *)

Lemma handle_events_vars (events : list Event) (s : Locals) :
  vecs (handle_events events s) = vecs s
  /\ nums (handle_events events s) = nums s.
Proof.
  unfold handle_events. revert s.
  induction events as [| event rest IH]; intros s; simpl; [split; reflexivity |].
  destruct event; rewrite (proj1 (IH _)), (proj2 (IH _)); split; reflexivity.
Qed.

(** The statements before the loop over the walls compute the free motion
    from the three physics variables and [dt], and leave the fresh vertex
    list and its length in [vertices] and [num_vertices]. *)
Lemma update_ball_spec (cfg : Config) (s : Locals) :
  physics_state (update_ball cfg s) = free_motion cfg (nums s N_dt) (physics_state s)
  /\ vertices (update_ball cfg s)
     = compute_hexagon_vertices (HEX_CENTER cfg) (HEX_RADIUS cfg)
         (hex_rotation (free_motion cfg (nums s N_dt) (physics_state s)))
  /\ num_vertices (update_ball cfg s) = length (vertices (update_ball cfg s)).
Proof. split; [reflexivity | split; reflexivity]. Qed.

(** What each block of the loop body leaves in the variables read after it,
    in terms of the variables it reads. *)
Lemma find_contact_spec (idx : nat) (s : Locals) :
  let A := nth idx (vertices s) (0, 0) in
  let B := nth (Nat.modulo (idx + 1) (num_vertices s)) (vertices s) (0, 0) in
  vecs (find_contact idx s) V_A = A
  /\ vecs (find_contact idx s) V_B = B
  /\ vecs (find_contact idx s) V_Q = contact_point A B (vecs s V_ball_pos)
  /\ nums (find_contact idx s) N_dist = wall_dist A B (vecs s V_ball_pos)
  /\ physics_state (find_contact idx s) = physics_state s
  /\ vertices (find_contact idx s) = vertices s
  /\ num_vertices (find_contact idx s) = num_vertices s.
Proof. cbv zeta. repeat (split; [reflexivity |]). reflexivity. Qed.

Lemma compute_normal_spec (cfg : Config) (s : Locals) :
  vecs (compute_normal cfg s) V_normal
    = inward_normal (HEX_CENTER cfg) (vecs s V_A) (vecs s V_B)
  /\ nums (compute_normal cfg s) N_penetration = BALL_RADIUS cfg - nums s N_dist
  /\ vecs (compute_normal cfg s) V_Q = vecs s V_Q
  /\ physics_state (compute_normal cfg s) = physics_state s
  /\ vertices (compute_normal cfg s) = vertices s
  /\ num_vertices (compute_normal cfg s) = num_vertices s.
Proof.
  unfold compute_normal, inward_normal. cbv zeta.
  match goal with
  | |- context [Rlt_dec ?a ?b] => destruct (Rlt_dec a b) as [Hlt | Hge]
  end;
    (split; [| repeat (split; [reflexivity |]); reflexivity]);
    destruct (Rlt_dec _ 0) as [Hlt' | Hge']; try reflexivity.
  - exfalso. apply Hge'. exact Hlt.
  - exfalso. apply Hge. exact Hlt'.
Qed.

Lemma compute_rel_vel_spec (cfg : Config) (s : Locals) :
  let v_wall := wall_velocity_at_point (vecs s V_Q) (HEX_CENTER cfg)
                  (HEX_ANGULAR_SPEED cfg) in
  vecs (compute_rel_vel cfg s) V_v_wall = v_wall
  /\ vecs (compute_rel_vel cfg s) V_rel_vel = vector_sub (vecs s V_ball_vel) v_wall
  /\ vecs (compute_rel_vel cfg s) V_normal = vecs s V_normal
  /\ nums (compute_rel_vel cfg s) N_penetration = nums s N_penetration
  /\ physics_state (compute_rel_vel cfg s) = physics_state s
  /\ vertices (compute_rel_vel cfg s) = vertices s
  /\ num_vertices (compute_rel_vel cfg s) = num_vertices s.
Proof. cbv zeta. repeat (split; [reflexivity |]). reflexivity. Qed.

Lemma reflect_and_push_spec (cfg : Config) (s : Locals) :
  physics_state (reflect_and_push cfg s)
    = {| ball_pos :=
           (fst (vecs s V_ball_pos) + fst (vecs s V_normal) * nums s N_penetration,
            snd (vecs s V_ball_pos) + snd (vecs s V_normal) * nums s N_penetration);
         ball_vel :=
           vector_add
             (vector_sub (vecs s V_rel_vel)
                (vector_mul (vecs s V_normal)
                   ((1 + RESTIUTION cfg) * dot (vecs s V_rel_vel) (vecs s V_normal))))
             (vecs s V_v_wall);
         hex_rotation := nums s N_hex_rotation |}
  /\ vertices (reflect_and_push cfg s) = vertices s
  /\ num_vertices (reflect_and_push cfg s) = num_vertices s.
Proof. split; [reflexivity | split; reflexivity]. Qed.

Lemma physics_state_vars (s s' : Locals) :
  physics_state s' = physics_state s ->
  vecs s' V_ball_pos = vecs s V_ball_pos
  /\ vecs s' V_ball_vel = vecs s V_ball_vel
  /\ nums s' N_hex_rotation = nums s N_hex_rotation.
Proof. unfold physics_state. intros H. injection H as H1 H2 H3. auto. Qed.

(** One pass over a wall reads [vertices], [num_vertices] and the physics
    variables only: every other variable it uses it has assigned before. *)
Lemma check_wall_spec (cfg : Config) (idx : nat) (s : Locals) :
  physics_state (check_wall cfg idx s)
    = resolve_edge cfg (nth idx (vertices s) (0, 0))
        (nth (Nat.modulo (idx + 1) (num_vertices s)) (vertices s) (0, 0))
        (physics_state s)
  /\ vertices (check_wall cfg idx s) = vertices s
  /\ num_vertices (check_wall cfg idx s) = num_vertices s.
Proof.
  unfold check_wall. cbv zeta.
  destruct (find_contact_spec idx s) as [HA [HB [HQ [Hd [Hp0 [Hv0 Hn0]]]]]].
  cbv zeta in HA, HB, HQ, Hd.
  set (s0 := find_contact idx s) in *.
  set (A := nth idx (vertices s) (0, 0)) in *.
  set (B := nth (Nat.modulo (idx + 1) (num_vertices s)) (vertices s) (0, 0)) in *.
  set (st := physics_state s) in *.
  change (vecs s V_ball_pos) with (ball_pos st) in HQ, Hd.
  rewrite Hd.
  destruct (Rlt_dec (wall_dist A B (ball_pos st)) (BALL_RADIUS cfg)) as [Hc | Hnc].
  2: { rewrite (resolve_edge_no_contact cfg A B st) by lra. auto. }
  destruct (compute_normal_spec cfg s0) as [Hnrm [Hpen [HQ1 [Hp1 [Hv1 Hn1]]]]].
  set (s1 := compute_normal cfg s0) in *.
  destruct (compute_rel_vel_spec cfg s1) as [Hw [Hrel [Hnrm2 [Hpen2 [Hp2 [Hv2 Hn2]]]]]].
  cbv zeta in Hw, Hrel.
  set (s2 := compute_rel_vel cfg s1) in *.
  destruct (physics_state_vars s s0 Hp0) as [Hpos0 [Hvel0 Hrot0]].
  destruct (physics_state_vars s0 s1 Hp1) as [Hpos1 [Hvel1 Hrot1]].
  destruct (physics_state_vars s1 s2 Hp2) as [Hpos2 [Hvel2 Hrot2]].
  assert (Hnormal : vecs s2 V_normal = inward_normal (HEX_CENTER cfg) A B).
  { rewrite Hnrm2, Hnrm, HA, HB. reflexivity. }
  assert (Hwall : vecs s2 V_v_wall = v_wall_at cfg A B (ball_pos st)).
  { rewrite Hw, HQ1, HQ. reflexivity. }
  assert (Hrv : vecs s2 V_rel_vel = rel_vel_at cfg A B st).
  { rewrite Hrel, HQ1, HQ, Hvel1, Hvel0. reflexivity. }
  assert (Hpn : nums s2 N_penetration = penetration cfg A B st).
  { rewrite Hpen2, Hpen, Hd. reflexivity. }
  rewrite Hrv, Hnormal.
  change (dot (rel_vel_at cfg A B st) (inward_normal (HEX_CENTER cfg) A B))
    with (approach cfg A B st).
  destruct (Rlt_dec (approach cfg A B st) 0) as [Ha | Hna].
  - rewrite (resolve_edge_resolved cfg A B st Hc Ha). cbv zeta.
    destruct (reflect_and_push_spec cfg s2) as [Hp3 [Hv3 Hn3]].
    rewrite Hp3, Hv3, Hn3, Hrv, Hnormal, Hwall, Hpn.
    rewrite Hpos2, Hpos1, Hpos0, Hrot2, Hrot1, Hrot0, Hv2, Hv1, Hv0, Hn2, Hn1, Hn0.
    auto.
  - rewrite (resolve_edge_not_approaching cfg A B st) by lra.
    rewrite Hp2, Hp1, Hp0, Hv2, Hv1, Hv0, Hn2, Hn1, Hn0. auto.
Qed.

Lemma check_walls_fold (cfg : Config) (walls : list nat) :
  forall s : Locals,
    physics_state (fold_left (fun s idx => check_wall cfg idx s) walls s)
    = fold_left
        (fun st i =>
           resolve_edge cfg (nth i (vertices s) (0, 0))
             (nth (Nat.modulo (i + 1) (num_vertices s)) (vertices s) (0, 0)) st)
        walls (physics_state s).
Proof.
  induction walls as [| idx rest IH]; intros s; simpl; [reflexivity |].
  destruct (check_wall_spec cfg idx s) as [Hp [Hv Hn]].
  rewrite IH, Hp, Hv, Hn. reflexivity.
Qed.

(** The physics variables after a pass of the loop are [tick] of the physics
    variables before it. *)
Lemma loop_body_physics (cfg : Config) (dt : R) (events : list Event) (s : Locals) :
  physics_state (loop_body cfg dt events s) = tick cfg dt (physics_state s).
Proof.
  unfold loop_body, check_walls. cbv zeta.
  set (s1 := handle_events events (set_num N_dt dt s)).
  destruct (handle_events_vars events (set_num N_dt dt s)) as [Hv Hn].
  fold s1 in Hv, Hn.
  assert (Hdt : nums s1 N_dt = dt) by (rewrite Hn; reflexivity).
  assert (Hphys : physics_state s1 = physics_state s).
  { unfold physics_state. rewrite Hv, Hn. reflexivity. }
  destruct (update_ball_spec cfg s1) as [Hp [Hvs Hlen]].
  rewrite check_walls_fold, Hlen, Hvs, Hp, Hdt, Hphys.
  reflexivity.
Qed.

(** C9: the ball position, ball velocity and rotation after a pass of the
    loop are a function of the ball position, ball velocity, rotation and
    [dt] before it, and of nothing else: two passes that start from stores
    equal in these three variables, with equal [dt], whatever their other
    variables hold and whatever events they poll, end with equal ball
    position, ball velocity and rotation. *)
Theorem loop_body_deterministic
    (cfg : Config) (dt1 dt2 : R) (events1 events2 : list Event) (s1 s2 : Locals) :
  vecs s1 V_ball_pos = vecs s2 V_ball_pos ->
  vecs s1 V_ball_vel = vecs s2 V_ball_vel ->
  nums s1 N_hex_rotation = nums s2 N_hex_rotation ->
  dt1 = dt2 ->
  vecs (loop_body cfg dt1 events1 s1) V_ball_pos
    = vecs (loop_body cfg dt2 events2 s2) V_ball_pos
  /\ vecs (loop_body cfg dt1 events1 s1) V_ball_vel
     = vecs (loop_body cfg dt2 events2 s2) V_ball_vel
  /\ nums (loop_body cfg dt1 events1 s1) N_hex_rotation
     = nums (loop_body cfg dt2 events2 s2) N_hex_rotation.
Proof.
  intros Hp Hv Hr Hdt.
  assert (Hin : physics_state s1 = physics_state s2).
  { unfold physics_state. rewrite Hp, Hv, Hr. reflexivity. }
  assert (Hout : physics_state (loop_body cfg dt1 events1 s1)
                 = physics_state (loop_body cfg dt2 events2 s2)).
  { rewrite !loop_body_physics, Hin, Hdt. reflexivity. }
  exact (physics_state_vars (loop_body cfg dt2 events2 s2)
           (loop_body cfg dt1 events1 s1) Hout).
Qed.

Lemma loop_body_deterministic_witness :
  let s1 := fresh_locals initial_state in
  let s2 := stale_locals initial_state in
  vecs (loop_body source_config (1 / 60) [] s1) V_ball_pos
    = vecs (loop_body source_config (1 / 60) [OtherEvent; QUIT] s2) V_ball_pos
  /\ vecs (loop_body source_config (1 / 60) [] s1) V_ball_vel
     = vecs (loop_body source_config (1 / 60) [OtherEvent; QUIT] s2) V_ball_vel
  /\ nums (loop_body source_config (1 / 60) [] s1) N_hex_rotation
     = nums (loop_body source_config (1 / 60) [OtherEvent; QUIT] s2) N_hex_rotation.
Proof.
  apply (loop_body_deterministic source_config (1 / 60) (1 / 60) [] [OtherEvent; QUIT]
           (fresh_locals initial_state) (stale_locals initial_state));
    reflexivity.
Defined.

(** * Further properties of the helper functions *)

(** ** [normalize] *)

Lemma sum_sqr_nonneg (x y : R) : 0 <= x * x + y * y.
Proof. apply Rplus_le_le_0_compat; [apply (Rle_0_sqr x) | apply (Rle_0_sqr y)]. Qed.

Lemma hypot_pos (x y : R) : (x, y) <> ((0, 0) : Vec) -> 0 < hypot x y.
Proof.
  intros Hne. destruct (hypot_nonneg x y) as [Hlt | Heq]; [exact Hlt |].
  exfalso. apply Hne. symmetry in Heq. apply hypot_zero_iff in Heq.
  destruct Heq as [-> ->]. reflexivity.
Qed.

(** X1: [normalize] maps the zero vector to [(0, 0)]; any other vector is
    mapped to a vector of length 1 which, scaled by the (positive) length of
    the input, gives the input back. *)
Theorem normalize_spec :
  normalize (0, 0) = (0, 0)
  /\ (forall vec : Vec,
         vec <> (0, 0) ->
         0 < hypot (fst vec) (snd vec)
         /\ hypot (fst (normalize vec)) (snd (normalize vec)) = 1
         /\ vector_mul (normalize vec) (hypot (fst vec) (snd vec)) = vec).
Proof.
  split.
  - unfold normalize. destruct (Req_dec_T (hypot 0 0) 0) as [_ | Hnz]; [reflexivity |].
    exfalso. apply Hnz. apply hypot_zero_iff. split; reflexivity.
  - intros [x y] Hne. simpl fst. simpl snd.
    pose proof (hypot_pos x y Hne) as Hpos.
    pose proof (hypot_sqr x y) as Hs.
    split; [exact Hpos |].
    unfold normalize. destruct (Req_dec_T (hypot x y) 0) as [Hz | Hnz]; [lra |].
    simpl. split.
    + unfold hypot at 1.
      replace (x / hypot x y * (x / hypot x y) + y / hypot x y * (y / hypot x y))
        with ((x * x + y * y) / (hypot x y * hypot x y)) by (field; exact Hnz).
      rewrite Hs. replace ((x * x + y * y) / (x * x + y * y)) with 1
        by (field; rewrite <- Hs; nra).
      apply sqrt_1.
    + unfold vector_mul. simpl.
      apply injective_projections; simpl; field; exact Hnz.
Qed.

Lemma normalize_spec_witness :
  0 < hypot (fst ((3, 4) : Vec)) (snd ((3, 4) : Vec))
  /\ hypot (fst (normalize (3, 4))) (snd (normalize (3, 4))) = 1
  /\ vector_mul (normalize (3, 4)) (hypot (fst ((3, 4) : Vec)) (snd ((3, 4) : Vec)))
     = (3, 4).
Proof.
  apply (proj2 normalize_spec (3, 4)).
  intros H. injection H as H1 H2. lra.
Defined.

(** ** [reflect] *)

(** X2: for a unit normal, [reflect] reverses the component of the velocity
    along the normal, keeps the squared length of the velocity, and applied
    twice gives the velocity back. *)
Theorem reflect_unit_normal (vel normal : Vec) :
  dot normal normal = 1 ->
  dot (reflect vel normal) normal = - dot vel normal
  /\ dot (reflect vel normal) (reflect vel normal) = dot vel vel
  /\ reflect (reflect vel normal) normal = vel.
Proof.
  destruct vel as [vx vy], normal as [nx ny].
  unfold reflect, dot, vector_sub, vector_mul. simpl. intros Hn.
  set (s := vx * nx + vy * ny).
  assert (H1 : (vx - nx * (2 * s)) * nx + (vy - ny * (2 * s)) * ny = - s).
  { replace ((vx - nx * (2 * s)) * nx + (vy - ny * (2 * s)) * ny)
      with (s - 2 * s * (nx * nx + ny * ny)) by (unfold s; ring).
    rewrite Hn. ring. }
  split; [exact H1 | split].
  - replace ((vx - nx * (2 * s)) * (vx - nx * (2 * s)) +
             (vy - ny * (2 * s)) * (vy - ny * (2 * s)))
      with (vx * vx + vy * vy - 4 * s * s + 4 * s * s * (nx * nx + ny * ny))
      by (unfold s; ring).
    rewrite Hn. ring.
  - rewrite H1. apply injective_projections; simpl; ring.
Qed.

Lemma reflect_unit_normal_witness :
  dot (reflect (3, 10) (0, -1)) (0, -1) = - dot (3, 10) (0, -1)
  /\ dot (reflect (3, 10) (0, -1)) (reflect (3, 10) (0, -1)) = dot (3, 10) (3, 10)
  /\ reflect (reflect (3, 10) (0, -1)) (0, -1) = (3, 10).
Proof.
  apply (reflect_unit_normal (3, 10) (0, -1)).
  unfold dot. simpl. lra.
Defined.

(** ** [wall_velocity_at_point] *)

(** X3: the wall velocity at a point is perpendicular to the radius vector
    from the rotation centre to the point, and its length is the absolute
    angular speed times the distance of the point from the centre. *)
Theorem wall_velocity_at_point_spec (point center : Vec) (angular_speed : R) :
  let v := wall_velocity_at_point point center angular_speed in
  dot v (vector_sub point center) = 0
  /\ hypot (fst v) (snd v) = Rabs angular_speed * distance point center.
Proof.
  destruct point as [px py], center as [cx cy]. cbv zeta.
  unfold wall_velocity_at_point, distance, hypot, dot, vector_sub. simpl.
  split; [ring |].
  replace (- angular_speed * (py - cy) * (- angular_speed * (py - cy)) +
           angular_speed * (px - cx) * (angular_speed * (px - cx)))
    with (Rsqr angular_speed * ((px - cx) * (px - cx) + (py - cy) * (py - cy)))
    by (unfold Rsqr; ring).
  rewrite sqrt_mult; [| apply Rle_0_sqr | apply sum_sqr_nonneg].
  rewrite sqrt_Rsqr_abs. reflexivity.
Qed.

(** ** More on [closest_point_on_segment] *)

(** X4: when [P] projects on the line of a non-degenerate segment at or
    before [A], the result is [(A, 0)]. *)
Theorem closest_point_before_A (A B P : Vec) :
  A <> B ->
  dot (vector_sub P A) (vector_sub B A) <= 0 ->
  closest_point_on_segment A B P = (A, 0).
Proof.
  intros Hne Hbefore. rewrite (closest_point_distinct A B P Hne).
  pose proof (vec_neq_sqr A B Hne) as Hsq.
  assert (Hle : proj_param A B P <= 0).
  { destruct A as [ax ay], B as [bx by_], P as [px py].
    unfold proj_param, dot, vector_sub in *. simpl in *.
    apply sum_sqr_pos in Hsq.
    apply (Rmult_le_reg_r ((bx - ax) * (bx - ax) + (by_ - ay) * (by_ - ay)));
      [exact Hsq |].
    replace (((px - ax) * (bx - ax) + (py - ay) * (by_ - ay)) /
             ((bx - ax) * (bx - ax) + (by_ - ay) * (by_ - ay)) *
             ((bx - ax) * (bx - ax) + (by_ - ay) * (by_ - ay)))
      with ((px - ax) * (bx - ax) + (py - ay) * (by_ - ay)) by (field; lra).
    lra. }
  rewrite (clamp_below _ Hle).
  destruct A as [ax ay], B as [bx by_].
  unfold point_at, vector_add, vector_mul, vector_sub. simpl.
  apply injective_projections; simpl; [| reflexivity].
  apply injective_projections; simpl; ring.
Qed.

Lemma closest_point_before_A_witness :
  closest_point_on_segment (0, 0) (2, 0) (-3, 1) = ((0, 0), 0).
Proof.
  apply (closest_point_before_A (0, 0) (2, 0) (-3, 1)).
  - intros H. injection H as H. lra.
  - unfold dot, vector_sub. simpl. lra.
Defined.

Lemma proj_param_point_at (A B : Vec) (t : R) :
  A <> B -> proj_param A B (point_at A B t) = t.
Proof.
  intros Hne. pose proof (vec_neq_sqr A B Hne) as Hsq.
  destruct A as [ax ay], B as [bx by_].
  unfold proj_param, point_at, dot, vector_add, vector_mul, vector_sub. simpl in *.
  field. exact Hsq.
Qed.

(** X5: a point of a non-degenerate segment is its own closest point: for
    [0 <= t <= 1] the query at [A + t*(B - A)] returns that point with
    parameter [t], at distance 0. *)
Theorem closest_point_of_segment_point (A B : Vec) (t : R) :
  A <> B ->
  0 <= t <= 1 ->
  closest_point_on_segment A B (point_at A B t) = (point_at A B t, t)
  /\ wall_dist A B (point_at A B t) = 0.
Proof.
  intros Hne Ht.
  assert (Hq : closest_point_on_segment A B (point_at A B t) = (point_at A B t, t)).
  { rewrite (closest_point_distinct A B _ Hne), (proj_param_point_at A B t Hne),
      (clamp_inside t Ht). reflexivity. }
  split; [exact Hq |].
  unfold wall_dist, contact_point. rewrite Hq. simpl fst.
  apply hypot_zero_iff. unfold vector_sub. simpl. split; ring.
Qed.

Lemma closest_point_of_segment_point_witness :
  closest_point_on_segment (0, 0) (2, 0) (point_at (0, 0) (2, 0) (1 / 4))
    = (point_at (0, 0) (2, 0) (1 / 4), 1 / 4)
  /\ wall_dist (0, 0) (2, 0) (point_at (0, 0) (2, 0) (1 / 4)) = 0.
Proof.
  apply (closest_point_of_segment_point (0, 0) (2, 0) (1 / 4)).
  - intros H. injection H as H. lra.
  - lra.
Defined.

(** Moving the query point along a direction perpendicular to the segment
    does not move its closest point. *)
Lemma closest_point_shift (A B P n : Vec) (k : R) :
  dot n (vector_sub B A) = 0 ->
  closest_point_on_segment A B (vector_add P (vector_mul n k))
    = closest_point_on_segment A B P.
Proof.
  destruct A as [ax ay], B as [bx by_], P as [px py], n as [nx ny].
  unfold dot, vector_sub, vector_add, vector_mul, closest_point_on_segment.
  simpl. intros Hperp.
  destruct (Req_dec_T _ 0) as [_ | _]; [reflexivity |].
  replace ((px + nx * k - ax) * (bx - ax) + (py + ny * k - ay) * (by_ - ay))
    with ((px - ax) * (bx - ax) + (py - ay) * (by_ - ay)
          + k * (nx * (bx - ax) + ny * (by_ - ay))) by ring.
  rewrite Hperp, Rmult_0_r, Rplus_0_r. reflexivity.
Qed.

(** ** More on the inward normal *)

Lemma normalize_opp (x y : R) :
  normalize (- x, - y) = vector_mul (normalize (x, y)) (-1).
Proof.
  unfold normalize.
  assert (Hh : hypot (- x) (- y) = hypot x y).
  { unfold hypot. f_equal. ring. }
  rewrite Hh. unfold vector_mul.
  destruct (Req_dec_T (hypot x y) 0) as [_ | Hnz]; simpl.
  - apply injective_projections; simpl; ring.
  - apply injective_projections; simpl; field; exact Hnz.
Qed.

(** X6: the inward normal does not depend on the order of the end points of
    the wall, provided it is not perpendicular to the vector from the wall
    midpoint to the centre (where the sign cannot be told). *)
Theorem inward_normal_order_independent (center A B : Vec) :
  dot (inward_normal center A B) (to_center center A B) <> 0 ->
  inward_normal center B A = inward_normal center A B.
Proof.
  assert (Hc : normalize (- (snd A - snd B), fst A - fst B)
               = vector_mul (normalize (- (snd B - snd A), fst B - fst A)) (-1)).
  { rewrite <- normalize_opp. f_equal. apply injective_projections; simpl; ring. }
  unfold inward_normal, to_center. simpl fst. simpl snd. rewrite Hc.
  destruct (normalize (- (snd B - snd A), fst B - fst A)) as [c1 c2].
  destruct center as [cx cy], A as [ax ay], B as [bx by_].
  unfold dot, vector_sub, vector_mul. simpl.
  set (D := c1 * (cx - (ax + bx) / 2) + c2 * (cy - (ay + by_) / 2)).
  replace (c1 * -1 * (cx - (bx + ax) / 2) + c2 * -1 * (cy - (by_ + ay) / 2))
    with (- D) by (unfold D; field).
  destruct (Rlt_dec D 0) as [Hlt | Hge]; destruct (Rlt_dec (- D) 0) as [Hlt' | Hge'];
    simpl; intros Hnz.
  - lra.
  - reflexivity.
  - apply injective_projections; simpl; ring.
  - exfalso. apply Hnz. fold D. lra.
Qed.

Lemma inward_normal_order_independent_witness :
  inward_normal (400, 300) floor_B floor_A = inward_normal (400, 300) floor_A floor_B.
Proof.
  apply (inward_normal_order_independent (400, 300) floor_A floor_B).
  change (inward_normal (400, 300) floor_A floor_B)
    with (inward_normal (HEX_CENTER still_config) floor_A floor_B).
  rewrite floor_normal. unfold dot, to_center, vector_sub, floor_A, floor_B. simpl. lra.
Defined.

(** * Further properties of the collision response *)

Lemma approach_normal_unit (cfg : Config) (A B : Vec) (st : SimState) :
  approach cfg A B st < 0 ->
  dot (inward_normal (HEX_CENTER cfg) A B) (inward_normal (HEX_CENTER cfg) A B) = 1.
Proof.
  intros Ha. apply inward_normal_unit. exact (approach_wall_distinct cfg A B st Ha).
Qed.

Lemma resolved_normal_component (cfg : Config) (A B : Vec) (st : SimState) :
  collides cfg A B st ->
  approach cfg A B st < 0 ->
  dot (vector_sub (ball_vel (resolve_edge cfg A B st)) (v_wall_at cfg A B (ball_pos st)))
      (inward_normal (HEX_CENTER cfg) A B)
    = - RESTIUTION cfg
      * dot (vector_sub (ball_vel st) (v_wall_at cfg A B (ball_pos st)))
            (inward_normal (HEX_CENTER cfg) A B).
Proof.
  intros Hc Ha.
  pose proof (approach_normal_unit cfg A B st Ha) as Hn.
  rewrite (resolve_edge_resolved cfg A B st Hc Ha). cbv zeta. simpl ball_vel.
  unfold rel_vel_at.
  set (w := v_wall_at cfg A B (ball_pos st)).
  set (e := RESTIUTION cfg).
  destruct (inward_normal (HEX_CENTER cfg) A B) as [nx ny].
  destruct (vector_sub (ball_vel st) w) as [rx ry].
  destruct w as [wx wy].
  unfold dot, vector_add, vector_sub, vector_mul in *. simpl in *.
  set (s := rx * nx + ry * ny).
  replace ((rx - nx * ((1 + e) * s) + wx - wx) * nx
           + (ry - ny * ((1 + e) * s) + wy - wy) * ny)
    with (s - (1 + e) * s * (nx * nx + ny * ny)) by (unfold s; ring).
  rewrite Hn. ring.
Qed.

Lemma resolved_energy_loss (cfg : Config) (A B : Vec) (st : SimState) :
  collides cfg A B st ->
  approach cfg A B st < 0 ->
  let n := inward_normal (HEX_CENTER cfg) A B in
  let w := v_wall_at cfg A B (ball_pos st) in
  let rel_vel := vector_sub (ball_vel st) w in
  let rel_vel' := vector_sub (ball_vel (resolve_edge cfg A B st)) w in
  dot rel_vel' rel_vel'
    = dot rel_vel rel_vel
      - (1 - RESTIUTION cfg * RESTIUTION cfg) * (dot rel_vel n * dot rel_vel n).
Proof.
  intros Hc Ha. cbv zeta.
  pose proof (approach_normal_unit cfg A B st Ha) as Hn.
  rewrite (resolve_edge_resolved cfg A B st Hc Ha). cbv zeta. simpl ball_vel.
  unfold rel_vel_at.
  set (w := v_wall_at cfg A B (ball_pos st)).
  set (e := RESTIUTION cfg).
  destruct (inward_normal (HEX_CENTER cfg) A B) as [nx ny].
  destruct (vector_sub (ball_vel st) w) as [rx ry].
  destruct w as [wx wy].
  unfold dot, vector_add, vector_sub, vector_mul in *. simpl in *.
  set (s := rx * nx + ry * ny).
  replace ((rx - nx * ((1 + e) * s) + wx - wx) * (rx - nx * ((1 + e) * s) + wx - wx) +
           (ry - ny * ((1 + e) * s) + wy - wy) * (ry - ny * ((1 + e) * s) + wy - wy))
    with (rx * rx + ry * ry - 2 * (1 + e) * s * s
          + (1 + e) * (1 + e) * s * s * (nx * nx + ny * ny))
    by (unfold s; ring).
  rewrite Hn. ring.
Qed.

(** X7: in a resolved collision the velocity relative to the wall has its
    component along the normal multiplied by [- RESTIUTION], its part
    perpendicular to the normal unchanged, and its squared length reduced by
    [(1 - RESTIUTION^2) * (rel_vel . normal)^2]. *)
Theorem collision_normal_and_tangential (cfg : Config) (A B : Vec) (st : SimState) :
  collides cfg A B st ->
  approach cfg A B st < 0 ->
  let n := inward_normal (HEX_CENTER cfg) A B in
  let w := v_wall_at cfg A B (ball_pos st) in
  let rel_vel := vector_sub (ball_vel st) w in
  let rel_vel' := vector_sub (ball_vel (resolve_edge cfg A B st)) w in
  dot rel_vel' n = - RESTIUTION cfg * dot rel_vel n
  /\ vector_sub rel_vel' (vector_mul n (dot rel_vel' n))
     = vector_sub rel_vel (vector_mul n (dot rel_vel n))
  /\ dot rel_vel' rel_vel'
     = dot rel_vel rel_vel
       - (1 - RESTIUTION cfg * RESTIUTION cfg) * (dot rel_vel n * dot rel_vel n).
Proof.
  intros Hc Ha. cbv zeta.
  pose proof (resolved_normal_component cfg A B st Hc Ha) as H1.
  split; [exact H1 | split; [| exact (resolved_energy_loss cfg A B st Hc Ha)]].
  rewrite H1.
  rewrite (resolve_edge_resolved cfg A B st Hc Ha). cbv zeta. simpl ball_vel.
  unfold rel_vel_at.
  destruct (v_wall_at cfg A B (ball_pos st)) as [wx wy].
  destruct (inward_normal (HEX_CENTER cfg) A B) as [nx ny].
  destruct (ball_vel st) as [vx vy].
  unfold dot, vector_add, vector_sub, vector_mul. simpl.
  apply injective_projections; simpl; ring.
Qed.

Lemma collision_normal_and_tangential_witness :
  let st := ball_at (400, 495) (3, 10) in
  let n := inward_normal (HEX_CENTER still_config) floor_A floor_B in
  let w := v_wall_at still_config floor_A floor_B (ball_pos st) in
  dot (vector_sub (ball_vel (resolve_edge still_config floor_A floor_B st)) w) n
    = - RESTIUTION still_config * dot (vector_sub (ball_vel st) w) n.
Proof.
  apply (collision_normal_and_tangential still_config floor_A floor_B
           (ball_at (400, 495) (3, 10))).
  - apply floor_collides. rewrite Rabs_neg5. lra.
  - rewrite floor_approach. simpl. lra.
Defined.

(** X8: with a restitution of 1 the resolved velocity is the velocity
    relative to the wall, mirrored by [reflect] about the inward normal, plus
    the wall velocity. *)
Theorem elastic_collision_is_reflect (cfg : Config) (A B : Vec) (st : SimState) :
  RESTIUTION cfg = 1 ->
  collides cfg A B st ->
  approach cfg A B st < 0 ->
  ball_vel (resolve_edge cfg A B st)
    = vector_add
        (reflect (rel_vel_at cfg A B st) (inward_normal (HEX_CENTER cfg) A B))
        (v_wall_at cfg A B (ball_pos st)).
Proof.
  intros He Hc Ha. rewrite (resolve_edge_resolved cfg A B st Hc Ha). cbv zeta.
  simpl ball_vel. rewrite He. unfold reflect.
  replace (1 + 1) with 2 by ring. reflexivity.
Qed.

Lemma elastic_collision_is_reflect_witness :
  let cfg := {| FPS := 60; GRAVITY := 800; DAMPING := 995 / 1000; RESTIUTION := 1;
                BALL_RADIUS := 10; HEX_CENTER := (400, 300); HEX_RADIUS := 250;
                HEX_ANGULAR_SPEED := 0 |} in
  let st := ball_at (400, 495) (3, 10) in
  ball_vel (resolve_edge cfg floor_A floor_B st)
    = vector_add (reflect (rel_vel_at cfg floor_A floor_B st)
                    (inward_normal (HEX_CENTER cfg) floor_A floor_B))
        (v_wall_at cfg floor_A floor_B (ball_pos st)).
Proof.
  cbv zeta.
  assert (Hn : inward_normal (400, 300) floor_A floor_B = (0, -1))
    by (apply inward_normal_horizontal; lra).
  apply elastic_collision_is_reflect.
  - reflexivity.
  - unfold collides. simpl. rewrite floor_dist, Rabs_neg5. lra.
  - unfold approach, rel_vel_at, v_wall_at. simpl. rewrite Hn, floor_contact.
    unfold wall_velocity_at_point, dot, vector_sub. simpl. lra.
Defined.

(** X9: a resolved collision moves the ball centre by [normal * penetration]:
    a displacement of length [BALL_RADIUS - dist > 0]. *)
Theorem position_correction_displacement (cfg : Config) (A B : Vec) (st : SimState) :
  collides cfg A B st ->
  approach cfg A B st < 0 ->
  ball_pos (resolve_edge cfg A B st)
    = vector_add (ball_pos st)
        (vector_mul (inward_normal (HEX_CENTER cfg) A B) (penetration cfg A B st))
  /\ 0 < penetration cfg A B st
  /\ distance (ball_pos (resolve_edge cfg A B st)) (ball_pos st)
     = penetration cfg A B st.
Proof.
  intros Hc Ha.
  pose proof (approach_normal_unit cfg A B st Ha) as Hn.
  assert (Hpen : 0 < penetration cfg A B st).
  { unfold penetration, collides in *. lra. }
  rewrite (resolve_edge_resolved cfg A B st Hc Ha). cbv zeta. simpl ball_pos.
  split; [reflexivity | split; [exact Hpen |]].
  set (pen := penetration cfg A B st) in *.
  destruct (inward_normal (HEX_CENTER cfg) A B) as [nx ny].
  destruct (ball_pos st) as [px py].
  unfold distance, hypot, vector_sub, dot in *. simpl in *.
  replace ((px + nx * pen - px) * (px + nx * pen - px) +
           (py + ny * pen - py) * (py + ny * pen - py))
    with (pen * pen * (nx * nx + ny * ny)) by ring.
  rewrite Hn, Rmult_1_r. apply sqrt_square. lra.
Qed.

Lemma position_correction_displacement_witness :
  let st := ball_at (400, 495) (0, 10) in
  distance (ball_pos (resolve_edge still_config floor_A floor_B st)) (ball_pos st)
    = penetration still_config floor_A floor_B st.
Proof.
  apply (position_correction_displacement still_config floor_A floor_B
           (ball_at (400, 495) (0, 10))).
  - apply floor_collides. rewrite Rabs_neg5. lra.
  - rewrite floor_approach. simpl. lra.
Defined.

(** X10: with a non-negative restitution, checking the same wall a second
    time changes nothing: after a resolution the ball no longer approaches
    that wall. *)
Theorem resolve_edge_idempotent (cfg : Config) (A B : Vec) (st : SimState) :
  0 <= RESTIUTION cfg ->
  resolve_edge cfg A B (resolve_edge cfg A B st) = resolve_edge cfg A B st.
Proof.
  intros He.
  destruct (Rlt_le_dec (wall_dist A B (ball_pos st)) (BALL_RADIUS cfg)) as [Hd | Hd].
  2: { rewrite (resolve_edge_no_contact cfg A B st Hd).
       apply resolve_edge_no_contact. exact Hd. }
  destruct (Rlt_le_dec (approach cfg A B st) 0) as [Ha | Ha].
  2: { rewrite (resolve_edge_not_approaching cfg A B st Ha).
       apply resolve_edge_not_approaching. exact Ha. }
  apply resolve_edge_not_approaching.
  pose proof (resolved_normal_component cfg A B st Hd Ha) as Hdot.
  assert (Hpos : ball_pos (resolve_edge cfg A B st)
                 = vector_add (ball_pos st)
                     (vector_mul (inward_normal (HEX_CENTER cfg) A B)
                        (penetration cfg A B st))).
  { rewrite (resolve_edge_resolved cfg A B st Hd Ha). reflexivity. }
  unfold approach, rel_vel_at, v_wall_at, contact_point in *.
  rewrite Hpos, closest_point_shift by apply inward_normal_perp.
  rewrite Hdot. nra.
Qed.

Lemma resolve_edge_idempotent_witness :
  let st := ball_at (400, 495) (0, 10) in
  resolve_edge still_config floor_A floor_B (resolve_edge still_config floor_A floor_B st)
    = resolve_edge still_config floor_A floor_B st.
Proof.
  apply (resolve_edge_idempotent still_config floor_A floor_B).
  simpl. lra.
Defined.

(** * Further properties of the tick *)

(** ** Rotation *)

Lemma resolve_edge_rotation (cfg : Config) (A B : Vec) (st : SimState) :
  hex_rotation (resolve_edge cfg A B st) = hex_rotation st.
Proof.
  unfold resolve_edge. cbv zeta.
  destruct (Rlt_dec _ (BALL_RADIUS cfg)); [| reflexivity].
  destruct (Rlt_dec _ 0); reflexivity.
Qed.

Lemma resolve_walls_rotation (cfg : Config) (vertices : list Vec) (st : SimState) :
  hex_rotation (resolve_walls cfg vertices st) = hex_rotation st.
Proof.
  unfold resolve_walls. generalize (seq 0 (length vertices)) as walls.
  intros walls. revert st.
  induction walls as [| i rest IH]; intros st; simpl; [reflexivity |].
  rewrite IH. apply resolve_edge_rotation.
Qed.

Lemma tick_rotation (cfg : Config) (dt : R) (st : SimState) :
  hex_rotation (tick cfg dt st) = hex_rotation st + HEX_ANGULAR_SPEED cfg * dt.
Proof. unfold tick. cbv zeta. rewrite resolve_walls_rotation. reflexivity. Qed.

(** X11: the rotation of the hexagon does not depend on the ball: whatever
    collisions happen, [n] ticks of length [dt] advance it by
    [n * HEX_ANGULAR_SPEED * dt] (it is never wrapped). *)
Theorem rotation_after_ticks (cfg : Config) (dt : R) (n : nat) (st : SimState) :
  hex_rotation (run_ticks (tick cfg dt) n st)
    = hex_rotation st + INR n * (HEX_ANGULAR_SPEED cfg * dt).
Proof.
  revert st. induction n as [| n IH]; intros st.
  - simpl. ring.
  - change (run_ticks (tick cfg dt) (S n) st)
      with (run_ticks (tick cfg dt) n (tick cfg dt st)).
    rewrite IH, tick_rotation, S_INR. ring.
Qed.

(** ** Damping *)

(** X12: while no wall acts on the ball, its horizontal velocity is
    multiplied by [DAMPING] once per tick, whatever [dt] and gravity are:
    after [n] ticks it is the initial one times [DAMPING ^ n]. *)
Theorem horizontal_velocity_decay (cfg : Config) (dt : R) (n : nat) (st : SimState) :
  fst (ball_vel (run_ticks (free_motion cfg dt) n st))
    = fst (ball_vel st) * DAMPING cfg ^ n.
Proof.
  revert st. induction n as [| n IH]; intros st.
  - simpl. ring.
  - change (run_ticks (free_motion cfg dt) (S n) st)
      with (run_ticks (free_motion cfg dt) n (free_motion cfg dt st)).
    rewrite IH. simpl. ring.
Qed.

(** * The geometry of the hexagon *)

Lemma sqrt3_sqr : sqrt 3 * sqrt 3 = 3.
Proof. apply sqrt_sqrt. lra. Qed.

Lemma cos_sin_sqr (a : R) : cos a * cos a + sin a * sin a = 1.
Proof. pose proof (sin2_cos2 a) as H. unfold Rsqr in H. lra. Qed.

Lemma cos_plus_PI3 (a : R) : cos (a + PI / 3) = cos a * (1 / 2) - sin a * (sqrt 3 / 2).
Proof. rewrite cos_plus, cos_PI3, sin_PI3. reflexivity. Qed.

Lemma sin_plus_PI3 (a : R) : sin (a + PI / 3) = sin a * (1 / 2) + cos a * (sqrt 3 / 2).
Proof. rewrite sin_plus, cos_PI3, sin_PI3. reflexivity. Qed.

(** The point of the circle of radius [r] around [c] at angle [a]. *)
Lemma hexagon_vertex_angle (center : Vec) (radius rotation : R) (i : nat) :
  hexagon_vertex center radius rotation i
    = (fst center + radius * cos (rotation + INR i * (PI / 3)),
       snd center + radius * sin (rotation + INR i * (PI / 3))).
Proof. destruct center. reflexivity. Qed.

Lemma compute_hexagon_vertices_length (center : Vec) (radius rotation : R) :
  length (compute_hexagon_vertices center radius rotation) = 6%nat.
Proof. reflexivity. Qed.

Lemma compute_hexagon_vertices_nth (center : Vec) (radius rotation : R) (i : nat) :
  (i < 6)%nat ->
  nth i (compute_hexagon_vertices center radius rotation) (0, 0)
    = hexagon_vertex center radius rotation i.
Proof.
  intros Hi. rewrite compute_hexagon_vertices_unfold.
  rewrite (nth_indep _ (0, 0) (hexagon_vertex center radius rotation 0%nat))
    by (rewrite length_map, length_seq; exact Hi).
  rewrite map_nth, seq_nth by exact Hi. reflexivity.
Qed.

(** Every wall runs from the point at some angle [a] to the point at
    [a + pi/3]; for the last wall, which closes the hexagon, the second
    point is vertex 0, a full turn after the first vertex. *)
Lemma hexagon_wall_shape (center : Vec) (radius rotation : R) (i : nat) :
  (i < 6)%nat ->
  exists a : R,
    hexagon_wall center radius rotation i
      = ((fst center + radius * cos a, snd center + radius * sin a),
         (fst center + radius * cos (a + PI / 3),
          snd center + radius * sin (a + PI / 3))).
Proof.
  intros Hi. exists (rotation + INR i * (PI / 3)).
  unfold hexagon_wall. cbv zeta.
  rewrite compute_hexagon_vertices_length.
  rewrite (compute_hexagon_vertices_nth _ _ _ i Hi), hexagon_vertex_angle.
  f_equal.
  destruct (Nat.eq_dec i 5) as [-> | Hne].
  - change (Nat.modulo (5 + 1) 6) with 0%nat.
    rewrite compute_hexagon_vertices_nth by lia. rewrite hexagon_vertex_angle.
    replace (rotation + INR 5 * (PI / 3) + PI / 3)
      with (rotation + INR 0 * (PI / 3) + 2 * INR 1 * PI) by (simpl; field).
    rewrite cos_period, sin_period. reflexivity.
  - rewrite Nat.mod_small by lia.
    rewrite compute_hexagon_vertices_nth by lia. rewrite hexagon_vertex_angle.
    replace (rotation + INR (i + 1) * (PI / 3))
      with (rotation + INR i * (PI / 3) + PI / 3) by (rewrite plus_INR; simpl; ring).
    reflexivity.
Qed.

(** X13: every vertex lies on the circle of radius [|radius|] around the
    centre. *)
Theorem hexagon_vertices_on_circle (center : Vec) (radius rotation : R) (v : Vec) :
  In v (compute_hexagon_vertices center radius rotation) ->
  distance v center = Rabs radius.
Proof.
  rewrite compute_hexagon_vertices_unfold. intros Hin.
  apply in_map_iff in Hin. destruct Hin as [i [<- _]].
  rewrite hexagon_vertex_angle. destruct center as [cx cy].
  unfold distance, hypot, vector_sub. simpl.
  set (a := rotation + INR i * (PI / 3)).
  replace ((cx + radius * cos a - cx) * (cx + radius * cos a - cx) +
           (cy + radius * sin a - cy) * (cy + radius * sin a - cy))
    with (Rsqr radius * (cos a * cos a + sin a * sin a)) by (unfold Rsqr; ring).
  rewrite cos_sin_sqr, Rmult_1_r. apply sqrt_Rsqr_abs.
Qed.

Lemma hexagon_vertices_on_circle_witness :
  distance (nth 2 (compute_hexagon_vertices (400, 300) 250 0) (0, 0)) (400, 300)
    = Rabs 250.
Proof.
  apply (hexagon_vertices_on_circle (400, 300) 250 0).
  apply nth_In. rewrite compute_hexagon_vertices_length. lia.
Defined.

Lemma sixty_degree_chord (C S q : R) :
  C * C + S * S = 1 -> q * q = 3 ->
  (C - (C * (1 / 2) - S * (q / 2))) * (C - (C * (1 / 2) - S * (q / 2)))
  + (S - (S * (1 / 2) + C * (q / 2))) * (S - (S * (1 / 2) + C * (q / 2))) = 1.
Proof.
  intros HCS Hq.
  replace ((C - (C * (1 / 2) - S * (q / 2))) * (C - (C * (1 / 2) - S * (q / 2)))
           + (S - (S * (1 / 2) + C * (q / 2))) * (S - (S * (1 / 2) + C * (q / 2))))
    with ((C * C + S * S) * (1 / 4 + q * q / 4)) by field.
  rewrite HCS, Hq. field.
Qed.

(** X14: every wall of the hexagon has length [|radius|]; so for a radius
    other than 0 its end points are distinct. *)
Theorem hexagon_wall_length (center : Vec) (radius rotation : R) (i : nat) :
  (i < 6)%nat ->
  distance (fst (hexagon_wall center radius rotation i))
           (snd (hexagon_wall center radius rotation i)) = Rabs radius
  /\ (radius <> 0 ->
      fst (hexagon_wall center radius rotation i)
        <> snd (hexagon_wall center radius rotation i)).
Proof.
  intros Hi.
  destruct (hexagon_wall_shape center radius rotation i Hi) as [a Hw].
  rewrite Hw. simpl fst. simpl snd.
  assert (Hd : distance (fst center + radius * cos a, snd center + radius * sin a)
                 (fst center + radius * cos (a + PI / 3),
                  snd center + radius * sin (a + PI / 3)) = Rabs radius).
  { unfold distance, hypot, vector_sub. simpl.
    rewrite cos_plus_PI3, sin_plus_PI3.
    set (C := cos a). set (S := sin a). set (q := sqrt 3).
    match goal with
    | |- sqrt ?e = _ =>
        replace e
          with (Rsqr radius
                * ((C - (C * (1 / 2) - S * (q / 2))) * (C - (C * (1 / 2) - S * (q / 2)))
                   + (S - (S * (1 / 2) + C * (q / 2)))
                     * (S - (S * (1 / 2) + C * (q / 2)))))
          by (unfold Rsqr; ring)
    end.
    rewrite (sixty_degree_chord C S q (cos_sin_sqr a) sqrt3_sqr).
    rewrite Rmult_1_r. apply sqrt_Rsqr_abs. }
  split; [exact Hd |].
  intros Hr Heq. rewrite Heq in Hd.
  assert (Hz : distance (fst center + radius * cos (a + PI / 3),
                         snd center + radius * sin (a + PI / 3))
                        (fst center + radius * cos (a + PI / 3),
                         snd center + radius * sin (a + PI / 3)) = 0).
  { unfold distance. apply hypot_zero_iff. unfold vector_sub. simpl. split; ring. }
  rewrite Hz in Hd. symmetry in Hd.
  apply Hr. unfold Rabs in Hd. destruct (Rcase_abs radius); lra.
Qed.

Lemma hexagon_wall_length_witness :
  distance (fst (hexagon_wall (400, 300) 250 0 5))
           (snd (hexagon_wall (400, 300) 250 0 5)) = Rabs 250
  /\ fst (hexagon_wall (400, 300) 250 0 5) <> snd (hexagon_wall (400, 300) 250 0 5).
Proof.
  destruct (hexagon_wall_length (400, 300) 250 0 5) as [Hd Hne]; [lia |].
  split; [exact Hd | apply Hne; lra].
Defined.

Lemma Rabs_sqr (r : R) : Rabs r * Rabs r = r * r.
Proof. unfold Rabs. destruct (Rcase_abs r); ring. Qed.

Lemma Rabs_nonzero (r : R) : r <> 0 -> Rabs r <> 0.
Proof. intros Hr. unfold Rabs. destruct (Rcase_abs r); lra. Qed.

Lemma normalize_with_length (x y m : R) :
  hypot x y = m -> m <> 0 -> normalize (x, y) = (x / m, y / m).
Proof.
  intros Hm Hnz. unfold normalize. rewrite Hm.
  destruct (Req_dec_T m 0) as [Hz | _]; [contradiction | reflexivity].
Qed.

(** The perpendicular of the chord from angle [a] to [a + pi/3] has the
    length of the radius. *)
Lemma wall_candidate_length (cx cy r a : R) :
  hypot (- (cy + r * sin (a + PI / 3) - (cy + r * sin a)))
        (cx + r * cos (a + PI / 3) - (cx + r * cos a)) = Rabs r.
Proof.
  unfold hypot. rewrite cos_plus_PI3, sin_plus_PI3.
  set (C := cos a). set (S := sin a). set (q := sqrt 3).
  match goal with
  | |- sqrt ?e = _ =>
      replace e
        with (Rsqr r
              * ((C - (C * (1 / 2) - S * (q / 2))) * (C - (C * (1 / 2) - S * (q / 2)))
                 + (S - (S * (1 / 2) + C * (q / 2)))
                   * (S - (S * (1 / 2) + C * (q / 2)))))
        by (unfold Rsqr; ring)
  end.
  rewrite (sixty_degree_chord C S q (cos_sin_sqr a) sqrt3_sqr).
  rewrite Rmult_1_r. apply sqrt_Rsqr_abs.
Qed.

Lemma apothem_pos (radius : R) : radius <> 0 -> 0 < apothem radius.
Proof.
  intros Hr. unfold apothem.
  assert (H3 : 0 < sqrt 3) by (apply sqrt_lt_R0; lra).
  assert (Ha : 0 < Rabs radius) by (apply Rabs_pos_lt; exact Hr).
  apply Rmult_lt_0_compat; lra.
Qed.

(** X15: for a radius other than 0 and every wall of the hexagon, the
    perpendicular [(-tangent.y, tangent.x)] already points to the centre: the
    inward normal is the normalized candidate, never its opposite, and the
    wall midpoint is at the apothem [|radius| * sqrt 3 / 2] from the centre
    along it. *)
Theorem hexagon_wall_normal (center : Vec) (radius rotation : R) (i : nat) :
  (i < 6)%nat ->
  radius <> 0 ->
  let A := fst (hexagon_wall center radius rotation i) in
  let B := snd (hexagon_wall center radius rotation i) in
  inward_normal center A B = normalize (- (snd B - snd A), fst B - fst A)
  /\ dot (inward_normal center A B) (to_center center A B) = apothem radius.
Proof.
  intros Hi Hr. cbv zeta.
  destruct (hexagon_wall_shape center radius rotation i Hi) as [a Hw].
  rewrite Hw. simpl fst. simpl snd. destruct center as [cx cy]. simpl fst. simpl snd.
  set (A := (cx + radius * cos a, cy + radius * sin a)).
  set (B := (cx + radius * cos (a + PI / 3), cy + radius * sin (a + PI / 3))).
  assert (Hdot : dot (normalize (- (snd B - snd A), fst B - fst A))
                     (to_center (cx, cy) A B) = apothem radius).
  { unfold A, B. simpl fst. simpl snd.
    rewrite (normalize_with_length _ _ (Rabs radius)
               (wall_candidate_length cx cy radius a) (Rabs_nonzero radius Hr)).
    unfold to_center, dot, vector_sub, apothem. simpl.
    rewrite cos_plus_PI3, sin_plus_PI3.
    pose proof (cos_sin_sqr a) as HCS.
    set (C := cos a) in *. set (S := sin a) in *. set (q := sqrt 3).
    match goal with
    | |- ?lhs = _ =>
        replace lhs
          with (radius * radius * (q / 2) * (C * C + S * S) / Rabs radius)
          by (field; apply Rabs_nonzero; exact Hr)
    end.
    rewrite HCS, <- Rabs_sqr. field. apply Rabs_nonzero. exact Hr. }
  pose proof (apothem_pos radius Hr) as Hpos.
  destruct (inward_normal_cases (cx, cy) A B) as [[Hlt _] | [_ He]].
  - unfold A, B in Hlt. fold A B in Hlt. rewrite Hdot in Hlt. lra.
  - rewrite He. split; [reflexivity | exact Hdot].
Qed.

Lemma hexagon_wall_normal_witness :
  let A := fst (hexagon_wall (400, 300) 250 0 5) in
  let B := snd (hexagon_wall (400, 300) 250 0 5) in
  inward_normal (400, 300) A B = normalize (- (snd B - snd A), fst B - fst A)
  /\ dot (inward_normal (400, 300) A B) (to_center (400, 300) A B) = apothem 250.
Proof.
  apply (hexagon_wall_normal (400, 300) 250 0 5); [lia | lra].
Defined.

(** ** Clearance from the walls *)

Lemma hypot_triangle (a b c d : R) :
  hypot (a + c) (b + d) <= hypot a b + hypot c d.
Proof.
  pose proof (hypot_nonneg a b) as Hab. pose proof (hypot_nonneg c d) as Hcd.
  pose proof (hypot_sqr a b) as Sab. pose proof (hypot_sqr c d) as Scd.
  pose proof (hypot_sqr (a + c) (b + d)) as Ssum.
  set (h1 := hypot a b) in *. set (h2 := hypot c d) in *.
  assert (Hcs : a * c + b * d <= h1 * h2).
  { destruct (Rle_lt_dec (a * c + b * d) (h1 * h2)) as [Hle | Hgt]; [exact Hle |].
    exfalso.
    assert (Hprod : 0 <= h1 * h2) by (apply Rmult_le_pos; assumption).
    assert (Hsq : (h1 * h2) * (h1 * h2) < (a * c + b * d) * (a * c + b * d))
      by (apply Rmult_le_0_lt_compat; lra).
    assert (Hlag : (a * c + b * d) * (a * c + b * d)
                   + (a * d - b * c) * (a * d - b * c)
                   = (h1 * h1) * (h2 * h2)) by (rewrite Sab, Scd; ring).
    pose proof (Rle_0_sqr (a * d - b * c)) as Hnn. unfold Rsqr in Hnn.
    replace (h1 * h1 * (h2 * h2)) with (h1 * h2 * (h1 * h2)) in Hlag by ring.
    lra. }
  apply Rsqr_incr_0_var; [| lra].
  unfold Rsqr. rewrite Ssum.
  replace ((h1 + h2) * (h1 + h2)) with (h1 * h1 + h2 * h2 + 2 * (h1 * h2)) by ring.
  rewrite Sab, Scd. lra.
Qed.

Lemma distance_sym (P Q : Vec) : distance P Q = distance Q P.
Proof. unfold distance, hypot, vector_sub. simpl. f_equal. ring. Qed.

Lemma distance_triangle (X Y Z : Vec) : distance X Z <= distance X Y + distance Y Z.
Proof.
  unfold distance, vector_sub. simpl.
  replace (fst X - fst Z) with ((fst X - fst Y) + (fst Y - fst Z)) by ring.
  replace (snd X - snd Z) with ((snd X - snd Y) + (snd Y - snd Z)) by ring.
  apply hypot_triangle.
Qed.

(** The contact point is a point of the line through the end points. *)
Lemma contact_point_on_line (A B P : Vec) :
  exists t : R, contact_point A B P = point_at A B t.
Proof.
  unfold contact_point, closest_point_on_segment.
  destruct A as [ax ay], B as [bx by_], P as [px py].
  destruct (Req_dec_T _ 0) as [_ | _].
  - exists 0. unfold point_at, vector_add, vector_mul, vector_sub. simpl.
    apply injective_projections; simpl; ring.
  - eexists. unfold point_at, vector_add, vector_mul, vector_sub. simpl.
    apply injective_projections; simpl; apply f_equal; apply Rmult_comm.
Qed.

(** Every point of the line of a wall is at least the apothem away from the
    centre. *)
Lemma wall_line_far_from_center (cx cy r a t : R) :
  apothem r
    <= distance
         (point_at (cx + r * cos a, cy + r * sin a)
                   (cx + r * cos (a + PI / 3), cy + r * sin (a + PI / 3)) t)
         (cx, cy).
Proof.
  apply Rsqr_incr_0_var; [| apply hypot_nonneg].
  unfold distance, Rsqr. rewrite hypot_sqr.
  unfold apothem, point_at, vector_add, vector_mul, vector_sub. simpl.
  rewrite cos_plus_PI3, sin_plus_PI3.
  pose proof (cos_sin_sqr a) as HCS. pose proof sqrt3_sqr as Hq.
  set (C := cos a) in *. set (S := sin a) in *. set (q := sqrt 3) in *.
  replace (Rabs r * (q / 2) * (Rabs r * (q / 2)))
    with ((Rabs r * Rabs r) * (q * q) / 4) by field.
  rewrite Rabs_sqr, Hq.
  match goal with
  | |- _ <= ?rhs =>
      replace rhs
        with (r * r * ((C * C + S * S) * (1 - t + t * t * (1 / 4 + q * q / 4))))
        by field
  end.
  rewrite HCS, Hq.
  assert (Hr : 0 <= r * r) by apply (Rle_0_sqr r).
  assert (Ht : 0 <= (t - 1 / 2) * (t - 1 / 2)) by apply (Rle_0_sqr (t - 1 / 2)).
  assert (Hm : 0 <= r * r * ((t - 1 / 2) * (t - 1 / 2))) by (apply Rmult_le_pos; assumption).
  lra.
Qed.

(** The contact point on a wall of the hexagon is at least the apothem away
    from the centre. *)
Lemma contact_point_far_from_center
    (center : Vec) (radius rotation : R) (i : nat) (P : Vec) :
  (i < 6)%nat ->
  apothem radius
    <= distance (contact_point (fst (hexagon_wall center radius rotation i))
                               (snd (hexagon_wall center radius rotation i)) P)
                center.
Proof.
  intros Hi.
  destruct (hexagon_wall_shape center radius rotation i Hi) as [a Hw].
  rewrite Hw. simpl fst. simpl snd.
  set (A := (fst center + radius * cos a, snd center + radius * sin a)).
  set (B := (fst center + radius * cos (a + PI / 3),
             snd center + radius * sin (a + PI / 3))).
  destruct (contact_point_on_line A B P) as [t Hq]. rewrite Hq.
  pose proof (wall_line_far_from_center (fst center) (snd center) radius a t) as Hfar.
  fold A B in Hfar.
  replace (fst center, snd center) with center in Hfar by (destruct center; reflexivity).
  exact Hfar.
Qed.

(** X16: a point [P] is at least [apothem - |P - centre|] away from every
    wall of the hexagon. *)
Theorem hexagon_wall_clearance (center : Vec) (radius rotation : R) (i : nat) (P : Vec) :
  (i < 6)%nat ->
  apothem radius - distance P center
    <= wall_dist (fst (hexagon_wall center radius rotation i))
                 (snd (hexagon_wall center radius rotation i)) P.
Proof.
  intros Hi.
  set (A := fst (hexagon_wall center radius rotation i)).
  set (B := snd (hexagon_wall center radius rotation i)).
  pose proof (contact_point_far_from_center center radius rotation i P Hi) as Hfar.
  fold A B in Hfar.
  change (wall_dist A B P) with (distance P (contact_point A B P)).
  pose proof (distance_triangle (contact_point A B P) P center) as Htri.
  rewrite (distance_sym (contact_point A B P) P) in Htri. lra.
Qed.

Lemma hexagon_wall_clearance_witness :
  apothem 250 - distance (400, 300) (400, 300)
    <= wall_dist (fst (hexagon_wall (400, 300) 250 0 0))
                 (snd (hexagon_wall (400, 300) 250 0 0)) (400, 300).
Proof.
  apply (hexagon_wall_clearance (400, 300) 250 0 0 (400, 300)). lia.
Defined.

Lemma fold_left_fixed (f : SimState -> nat -> SimState) (walls : list nat) (st : SimState) :
  (forall i, In i walls -> f st i = st) -> fold_left f walls st = st.
Proof.
  induction walls as [| i rest IH]; intros Hfix; simpl; [reflexivity |].
  rewrite (Hfix i) by (left; reflexivity).
  apply IH. intros j Hj. apply Hfix. right. exact Hj.
Qed.

(** X17: when, after the free motion of a tick, the ball centre is within
    [apothem - BALL_RADIUS] of the hexagon centre, no wall touches the ball
    and the tick is the free motion alone. *)
Theorem tick_inside_is_free_motion (cfg : Config) (dt : R) (st : SimState) :
  distance (ball_pos (free_motion cfg dt st)) (HEX_CENTER cfg) + BALL_RADIUS cfg
    <= apothem (HEX_RADIUS cfg) ->
  tick cfg dt st = free_motion cfg dt st.
Proof.
  intros Hin. unfold tick, resolve_walls. cbv zeta.
  apply fold_left_fixed. intros i Hi.
  apply in_seq in Hi. rewrite compute_hexagon_vertices_length in Hi.
  apply resolve_edge_no_contact.
  set (P := ball_pos (free_motion cfg dt st)) in *.
  set (rot := hex_rotation (free_motion cfg dt st)).
  pose proof (contact_point_far_from_center (HEX_CENTER cfg) (HEX_RADIUS cfg) rot i P
                ltac:(lia)) as Hfar.
  set (A := fst (hexagon_wall (HEX_CENTER cfg) (HEX_RADIUS cfg) rot i)) in *.
  set (B := snd (hexagon_wall (HEX_CENTER cfg) (HEX_RADIUS cfg) rot i)) in *.
  change (BALL_RADIUS cfg <= distance P (contact_point A B P)).
  pose proof (distance_triangle (contact_point A B P) P (HEX_CENTER cfg)) as Htri.
  rewrite (distance_sym (contact_point A B P) P) in Htri. lra.
Qed.

Lemma sqrt3_lower : 17 / 10 <= sqrt 3.
Proof.
  rewrite <- (sqrt_square (17 / 10)) by lra.
  apply sqrt_le_1_alt. lra.
Qed.

(** The first tick of the simulation, at 60 ticks per second, is such a
    tick. *)
Lemma tick_inside_is_free_motion_witness :
  tick source_config (1 / 60) initial_state
    = free_motion source_config (1 / 60) initial_state.
Proof.
  apply (tick_inside_is_free_motion source_config (1 / 60) initial_state).
  assert (Hd : distance (ball_pos (free_motion source_config (1 / 60) initial_state))
                 (HEX_CENTER source_config) <= 150).
  { apply Rsqr_incr_0_var; [| lra].
    unfold distance, Rsqr. rewrite hypot_sqr.
    unfold vector_sub, INITIAL_BALL_POS, INITIAL_BALL_VEL. simpl. lra. }
  assert (Ha : 17 / 10 * 125 <= apothem (HEX_RADIUS source_config)).
  { unfold apothem. simpl. rewrite Rabs_pos_eq by lra.
    pose proof sqrt3_lower. lra. }
  simpl BALL_RADIUS. lra.
Defined.

(** ** Speed of the ball with the hexagon at rest and no gravity *)

Lemma v_wall_at_rest (cfg : Config) (A B P : Vec) :
  HEX_ANGULAR_SPEED cfg = 0 -> v_wall_at cfg A B P = (0, 0).
Proof.
  intros Hw. unfold v_wall_at, wall_velocity_at_point. rewrite Hw.
  apply injective_projections; simpl; ring.
Qed.

Lemma resolve_edge_speed_at_rest (cfg : Config) (A B : Vec) (st : SimState) :
  HEX_ANGULAR_SPEED cfg = 0 ->
  -1 <= RESTIUTION cfg <= 1 ->
  dot (ball_vel (resolve_edge cfg A B st)) (ball_vel (resolve_edge cfg A B st))
    <= dot (ball_vel st) (ball_vel st).
Proof.
  intros Hw [He0 He1].
  destruct (Rlt_le_dec (wall_dist A B (ball_pos st)) (BALL_RADIUS cfg)) as [Hd | Hd].
  2: { rewrite (resolve_edge_no_contact cfg A B st Hd). lra. }
  destruct (Rlt_le_dec (approach cfg A B st) 0) as [Ha | Ha].
  2: { rewrite (resolve_edge_not_approaching cfg A B st Ha). lra. }
  pose proof (resolved_energy_loss cfg A B st Hd Ha) as Hen.
  cbv zeta in Hen. rewrite (v_wall_at_rest cfg A B _ Hw) in Hen.
  set (v' := ball_vel (resolve_edge cfg A B st)) in *.
  set (v := ball_vel st) in *.
  set (n := inward_normal (HEX_CENTER cfg) A B) in *.
  set (e := RESTIUTION cfg) in *.
  assert (H1 : dot (vector_sub v' (0, 0)) (vector_sub v' (0, 0)) = dot v' v')
    by (unfold dot, vector_sub; simpl; ring).
  assert (H2 : dot (vector_sub v (0, 0)) (vector_sub v (0, 0)) = dot v v)
    by (unfold dot, vector_sub; simpl; ring).
  rewrite H1, H2 in Hen. rewrite Hen.
  set (s := dot (vector_sub v (0, 0)) n).
  assert (Hs : 0 <= (1 - e * e) * (s * s)).
  { apply Rmult_le_pos; [nra | apply (Rle_0_sqr s)]. }
  lra.
Qed.

Lemma resolve_walls_speed_at_rest (cfg : Config) (vertices : list Vec) (st : SimState) :
  HEX_ANGULAR_SPEED cfg = 0 ->
  -1 <= RESTIUTION cfg <= 1 ->
  dot (ball_vel (resolve_walls cfg vertices st)) (ball_vel (resolve_walls cfg vertices st))
    <= dot (ball_vel st) (ball_vel st).
Proof.
  intros Hw He. unfold resolve_walls. cbv zeta.
  generalize (seq 0 (length vertices)) as walls. intros walls. revert st.
  induction walls as [| i rest IH]; intros st; simpl; [lra |].
  eapply Rle_trans; [apply IH |].
  apply resolve_edge_speed_at_rest; assumption.
Qed.

Lemma tick_speed_at_rest (cfg : Config) (dt : R) (st : SimState) :
  GRAVITY cfg = 0 ->
  HEX_ANGULAR_SPEED cfg = 0 ->
  -1 <= DAMPING cfg <= 1 ->
  -1 <= RESTIUTION cfg <= 1 ->
  dot (ball_vel (tick cfg dt st)) (ball_vel (tick cfg dt st))
    <= dot (ball_vel st) (ball_vel st).
Proof.
  intros Hg Hw [Hk0 Hk1] He. unfold tick. cbv zeta.
  eapply Rle_trans; [apply resolve_walls_speed_at_rest; assumption |].
  unfold free_motion, advance_rotation, apply_damping, integrate, apply_gravity, dot.
  simpl. rewrite Hg.
  destruct (ball_vel st) as [vx vy]. simpl.
  set (k := DAMPING cfg) in *.
  replace (vx * k * (vx * k) + (vy + 0 * dt) * k * ((vy + 0 * dt) * k))
    with ((vx * vx + vy * vy) - (1 - k * k) * (vx * vx + vy * vy)) by ring.
  assert (Hs : 0 <= (1 - k * k) * (vx * vx + vy * vy)).
  { apply Rmult_le_pos; [nra | apply sum_sqr_nonneg]. }
  lra.
Qed.

(** X18: with no gravity, the hexagon at rest, and damping and restitution
    factors of absolute value at most 1, the speed of the ball never grows:
    after any number of ticks its squared velocity is at most the initial
    one. *)
Theorem speed_never_grows_at_rest (cfg : Config) (dt : R) (n : nat) (st : SimState) :
  GRAVITY cfg = 0 ->
  HEX_ANGULAR_SPEED cfg = 0 ->
  -1 <= DAMPING cfg <= 1 ->
  -1 <= RESTIUTION cfg <= 1 ->
  dot (ball_vel (run_ticks (tick cfg dt) n st)) (ball_vel (run_ticks (tick cfg dt) n st))
    <= dot (ball_vel st) (ball_vel st).
Proof.
  intros Hg Hw Hk He. revert st.
  induction n as [| n IH]; intros st.
  - simpl. lra.
  - change (run_ticks (tick cfg dt) (S n) st)
      with (run_ticks (tick cfg dt) n (tick cfg dt st)).
    eapply Rle_trans; [apply IH |].
    apply tick_speed_at_rest; assumption.
Qed.

Lemma speed_never_grows_at_rest_witness :
  let cfg := {| FPS := 60; GRAVITY := 0; DAMPING := 995 / 1000; RESTIUTION := 9 / 10;
                BALL_RADIUS := 10; HEX_CENTER := (400, 300); HEX_RADIUS := 250;
                HEX_ANGULAR_SPEED := 0 |} in
  dot (ball_vel (run_ticks (tick cfg (1 / 60)) 600 initial_state))
      (ball_vel (run_ticks (tick cfg (1 / 60)) 600 initial_state))
    <= dot (ball_vel initial_state) (ball_vel initial_state).
Proof.
  cbv zeta. apply speed_never_grows_at_rest; simpl; lra.
Defined.

(** ** A moving wall and a ball at rest *)

(** X19: a ball at rest that a moving wall runs into leaves along the inward
    normal, with [(1 + RESTIUTION)] times the wall's speed along the
    normal. *)
Theorem wall_pushes_ball_at_rest (cfg : Config) (A B : Vec) (st : SimState) :
  ball_vel st = (0, 0) ->
  collides cfg A B st ->
  approach cfg A B st < 0 ->
  let n := inward_normal (HEX_CENTER cfg) A B in
  let w := v_wall_at cfg A B (ball_pos st) in
  0 < dot w n
  /\ ball_vel (resolve_edge cfg A B st) = vector_mul n ((1 + RESTIUTION cfg) * dot w n).
Proof.
  intros Hv Hc Ha. cbv zeta.
  rewrite (resolve_edge_resolved cfg A B st Hc Ha). cbv zeta. simpl ball_vel.
  unfold approach in Ha. unfold rel_vel_at in *. rewrite Hv in *.
  destruct (v_wall_at cfg A B (ball_pos st)) as [wx wy].
  destruct (inward_normal (HEX_CENTER cfg) A B) as [nx ny].
  unfold dot, vector_add, vector_sub, vector_mul in *. simpl in *.
  split; [lra |].
  apply injective_projections; simpl; ring.
Qed.

Lemma wall_pushes_ball_at_rest_witness :
  let cfg := {| FPS := 60; GRAVITY := 800; DAMPING := 995 / 1000; RESTIUTION := 9 / 10;
                BALL_RADIUS := 10; HEX_CENTER := (400, 300); HEX_RADIUS := 250;
                HEX_ANGULAR_SPEED := 1 |} in
  let st := ball_at (395, 495) (0, 0) in
  0 < dot (v_wall_at cfg floor_A floor_B (ball_pos st))
          (inward_normal (HEX_CENTER cfg) floor_A floor_B)
  /\ ball_vel (resolve_edge cfg floor_A floor_B st)
     = vector_mul (inward_normal (HEX_CENTER cfg) floor_A floor_B)
         ((1 + RESTIUTION cfg)
          * dot (v_wall_at cfg floor_A floor_B (ball_pos st))
                (inward_normal (HEX_CENTER cfg) floor_A floor_B)).
Proof.
  cbv zeta.
  assert (Hn : inward_normal (400, 300) floor_A floor_B = (0, -1))
    by (apply inward_normal_horizontal; lra).
  assert (Hq : contact_point floor_A floor_B (395, 495) = (395, 500))
    by (apply contact_point_horizontal; lra).
  apply wall_pushes_ball_at_rest.
  - reflexivity.
  - unfold collides. simpl.
    unfold floor_A, floor_B. rewrite wall_dist_horizontal by lra.
    rewrite Rabs_neg5. lra.
  - unfold approach, rel_vel_at, v_wall_at. simpl. rewrite Hn, Hq.
    unfold wall_velocity_at_point, dot, vector_sub. simpl. lra.
Defined.

(** ** Order of the vertices *)

(** X20: seen from the centre, each wall turns by 60 degrees in the positive
    sense of the coordinates (from the x axis towards the y axis): for its
    end points [A], [B] the cross product of [A - centre] and [B - centre]
    is [radius^2 * sqrt 3 / 2] and their dot product is [radius^2 / 2]; this
    holds for the wall that closes the hexagon too. *)
Theorem hexagon_walls_turn_positively (center : Vec) (radius rotation : R) (i : nat) :
  (i < 6)%nat ->
  let u := vector_sub (fst (hexagon_wall center radius rotation i)) center in
  let v := vector_sub (snd (hexagon_wall center radius rotation i)) center in
  fst u * snd v - snd u * fst v = radius * radius * (sqrt 3 / 2)
  /\ dot u v = radius * radius / 2.
Proof.
  intros Hi. cbv zeta.
  destruct (hexagon_wall_shape center radius rotation i Hi) as [a Hw].
  rewrite Hw. destruct center as [cx cy].
  unfold dot, vector_sub. simpl.
  rewrite cos_plus_PI3, sin_plus_PI3.
  pose proof (cos_sin_sqr a) as HCS.
  set (C := cos a) in *. set (S := sin a) in *. set (q := sqrt 3).
  split.
  - replace ((cx + radius * C - cx) * (cy + radius * (S * (1 / 2) + C * (q / 2)) - cy)
             - (cy + radius * S - cy) * (cx + radius * (C * (1 / 2) - S * (q / 2)) - cx))
      with (radius * radius * (q / 2) * (C * C + S * S)) by ring.
    rewrite HCS. ring.
  - replace ((cx + radius * C - cx) * (cx + radius * (C * (1 / 2) - S * (q / 2)) - cx)
             + (cy + radius * S - cy) * (cy + radius * (S * (1 / 2) + C * (q / 2)) - cy))
      with (radius * radius * (1 / 2) * (C * C + S * S)) by ring.
    rewrite HCS. field.
Qed.

Lemma hexagon_walls_turn_positively_witness :
  let u := vector_sub (fst (hexagon_wall (400, 300) 250 0 5)) (400, 300) in
  let v := vector_sub (snd (hexagon_wall (400, 300) 250 0 5)) (400, 300) in
  fst u * snd v - snd u * fst v = 250 * 250 * (sqrt 3 / 2)
  /\ dot u v = 250 * 250 / 2.
Proof.
  apply (hexagon_walls_turn_positively (400, 300) 250 0 5). lia.
Defined.
